(** * Live voice pipeline of the Dhaka traffic assistant

    A shallow embedding of the parts of [src/services/gemini.ts] and
    [src/components/LiveTrafficTalk.tsx] that carry the real-time
    conversation: the transcript accumulation of the call widget, the
    PCM codec, the resampler, the playback scheduler and the teardown of
    a live connection.

    Conventions.
    - A JavaScript string is its sequence of UTF-16 code units.
    - In the codec a JavaScript number that is finite is an exact
      rational; [NaN] is added where an array element can hold it.
      Every value that the codec stores (a 16-bit integer divided by
      32768, a single-precision sample times 32767 or 32768) is exactly
      representable in binary floating point, so there the rational
      model and IEEE arithmetic agree.  The clock arithmetic of the
      playback schedule is taken without rounding.
    - The resampler rounds: its numbers are IEEE 754 doubles, with the
      operations of the Standard Library's [SpecFloat], and its arrays
      hold single-precision values.
    - A React state setter called with a function queues the function;
      it is called during the next render, after the handler that
      queued it has returned.
    - Mutable variables captured by closures become fields of a state
      record that every handler takes and returns; calls into the
      platform are recorded in an effect log. *)

From Stdlib Require Import Ascii String.
From Stdlib Require Decimal DecimalPos Strings.Byte SpecFloat.
From Stdlib Require Import List ZArith NArith QArith Qround Bool Lia Lqa.
Import ListNotations.

Local Open Scope Z_scope.

(* ================================================================== *)
(** * JavaScript strings *)
(* ================================================================== *)

Module JsString.

Definition code_unit := N.
Definition jsstring := list code_unit.

(** A literal of the source, written in ASCII. *)
Definition lit (s : String.string) : jsstring :=
  map N_of_ascii (String.list_ascii_of_string s).
Arguments lit s%_string.

Fixpoint eqb (a b : jsstring) : bool :=
  match a, b with
  | [], [] => true
  | x :: a', y :: b' => N.eqb x y && eqb a' b'
  | _, _ => false
  end.

(** ECMAScript [WhiteSpace] and [LineTerminator] code points, the set
    that [String.prototype.trim] and [parseInt] strip. *)
Definition isWhiteSpace (c : code_unit) : bool :=
  (existsb (N.eqb c)
     [9; 10; 11; 12; 13; 32; 160; 5760; 8232; 8233; 8239; 8287; 12288; 65279]
   || ((8192 <=? c) && (c <=? 8202)))%N.

Fixpoint trimStart (s : jsstring) : jsstring :=
  match s with
  | c :: s' => if isWhiteSpace c then trimStart s' else s
  | [] => []
  end.

Definition trimEnd (s : jsstring) : jsstring := rev (trimStart (rev s)).

Definition trim (s : jsstring) : jsstring := trimEnd (trimStart s).

(** Truthiness of a string: it is not empty. *)
Definition truthy (s : jsstring) : bool :=
  match s with [] => false | _ :: _ => true end.

(** ** [Number.prototype.toString] on an integer *)

Fixpoint uint_units (u : Decimal.uint) : jsstring :=
  (match u with
   | Decimal.Nil => []
   | Decimal.D0 u => 48 :: uint_units u
   | Decimal.D1 u => 49 :: uint_units u
   | Decimal.D2 u => 50 :: uint_units u
   | Decimal.D3 u => 51 :: uint_units u
   | Decimal.D4 u => 52 :: uint_units u
   | Decimal.D5 u => 53 :: uint_units u
   | Decimal.D6 u => 54 :: uint_units u
   | Decimal.D7 u => 55 :: uint_units u
   | Decimal.D8 u => 56 :: uint_units u
   | Decimal.D9 u => 57 :: uint_units u
   end)%N.

Definition toString (z : Z) : jsstring :=
  match Z.to_int z with
  | Decimal.Pos u => uint_units u
  | Decimal.Neg u => 45%N :: uint_units u
  end.

(** ** [parseInt] with the radix left out

    Leading white space is skipped, a sign is read, a [0x] or [0X]
    prefix selects radix 16, and the longest prefix of digits is
    converted; no digit at all gives [NaN], here [None]. *)

Definition digit_value (radix : Z) (c : code_unit) : option Z :=
  let v :=
    if ((48 <=? c) && (c <=? 57))%N then Some (Z.of_N c - 48)
    else if ((97 <=? c) && (c <=? 122))%N then Some (Z.of_N c - 87)
    else if ((65 <=? c) && (c <=? 90))%N then Some (Z.of_N c - 55)
    else None in
  match v with
  | Some d => if d <? radix then Some d else None
  | None => None
  end.

Fixpoint parse_digits (radix : Z) (s : jsstring) (acc : option Z) : option Z :=
  match s with
  | [] => acc
  | c :: s' =>
      match digit_value radix c with
      | Some d =>
          let a := match acc with Some a => a | None => 0 end in
          parse_digits radix s' (Some (radix * a + d))
      | None => acc
      end
  end.

Definition parseInt (s : jsstring) : option Z :=
  let s0 := trimStart s in
  let '(sign, s1) :=
    match s0 with
    | 45%N :: r => (-1, r)
    | 43%N :: r => (1, r)
    | _ => (1, s0)
    end in
  let '(radix, s2) :=
    match s1 with
    | 48%N :: x :: r => if (N.eqb x 120 || N.eqb x 88) then (16, r) else (10, s1)
    | _ => (10, s1)
    end in
  option_map (Z.mul sign) (parse_digits radix s2 None).

End JsString.

Import JsString.

(* ================================================================== *)
(** * The call widget: transcript accumulation *)
(* ================================================================== *)

Module Widget.

(** The [sender] argument of the transcript callback. *)
Inductive Speaker := spk_user | spk_jhuma.

(** The [sender] field of a [TranscriptItem]. *)
Inductive Sender := user | jhuma | system.

Definition sender_eqb (a b : Sender) : bool :=
  match a, b with
  | user, user | jhuma, jhuma | system, system => true
  | _, _ => false
  end.

Definition sender_of (s : Speaker) : Sender :=
  match s with spk_user => user | spk_jhuma => jhuma end.

Record TranscriptItem := mkItem {
  id : jsstring;
  sender : Sender;
  text : option jsstring;
  mapData : option (jsstring * jsstring)
}.

(** A function passed to [setTranscript].  React does not call it when
    the setter is called: it is put in a queue and called during the
    next render, after the handler that queued it has returned.  The
    three functions of the component append one entry; what they read
    when they are called is the clock and, for an utterance, the buffer
    ref of the speaker. *)
Inductive Updater :=
| append_spoken (s : Speaker)
| append_route (origin destination : jsstring).

(** The component's state that the callbacks touch.  [transcript] is
    the state that the next render starts from and [pending] the
    updaters that it will call, oldest first.  A setter called with a
    value replaces the state, so [streamingUser] and [streamingJhuma]
    hold the value that the next render shows.  The two refs change at
    once. *)
Record Hooks := mkHooks {
  transcript : list TranscriptItem;
  streamingUser : jsstring;
  streamingJhuma : jsstring;
  userBufferRef : jsstring;
  jhumaBufferRef : jsstring;
  pending : list Updater
}.

Definition initial : Hooks := mkHooks [] [] [] [] [] [].

Definition buffer_of (s : Speaker) (h : Hooks) : jsstring :=
  match s with spk_user => userBufferRef h | spk_jhuma => jhumaBufferRef h end.

Definition live_of (s : Speaker) (h : Hooks) : jsstring :=
  match s with spk_user => streamingUser h | spk_jhuma => streamingJhuma h end.

(** One updater, called during a render at clock reading [now] with the
    refs as they are then. *)
Definition run_updater (now : Z) (h : Hooks) (prev : list TranscriptItem)
    (u : Updater) : list TranscriptItem :=
  match u with
  | append_spoken s =>
      prev ++ [mkItem (toString now) (sender_of s) (Some (buffer_of s h)) None]
  | append_route origin destination =>
      prev ++ [mkItem (toString now) system None (Some (origin, destination))]
  end.

(** A render: the queued updaters are called in order. *)
Definition render (now : Z) (h : Hooks) : Hooks :=
  mkHooks (fold_left (run_updater now h) (pending h) (transcript h))
          (streamingUser h) (streamingJhuma h) (userBufferRef h) (jhumaBufferRef h) [].

(** [toggleSession], the branch that starts a call, in a state that has
    been rendered.  The callbacks built here close over the
    [transcript] constant of the render in which the handler was
    created; that list, the first component of the result, is what
    [transcript.some] reads for the whole call. *)
Definition toggleSession_start (h : Hooks) : list TranscriptItem * Hooks :=
  (transcript h, mkHooks [] [] [] [] [] []).

(** The test inside [transcript.some]; [now] is [Date.now()]. *)
Definition some_test (now : Z) (buffer : jsstring) (t : TranscriptItem) : bool :=
  sender_eqb (sender t) user
  && match text t with Some x => JsString.eqb x buffer | None => false end
  && match parseInt (id t) with Some n => now - 2000 <? n | None => false end.

Definition isNew (captured : list TranscriptItem) (now : Z) (buffer : jsstring) : bool :=
  negb (existsb (some_test now buffer) captured).

(** The transcript callback handed to [connectToJhumaLive]; [now] is
    the [Date.now()] of the duplicate test. *)
Definition onTranscript (captured : list TranscriptItem) (now : Z)
    (sender : Speaker) (text : jsstring) (isFinal : bool) (h : Hooks) : Hooks :=
  match sender with
  | spk_user =>
      let buffer := userBufferRef h ++ text in
      if isFinal then
        let queue :=
          if truthy (trim buffer) && isNew captured now buffer
          then pending h ++ [append_spoken spk_user]
          else pending h in
        mkHooks (transcript h) [] (streamingJhuma h) [] (jhumaBufferRef h) queue
      else
        mkHooks (transcript h) buffer (streamingJhuma h) buffer (jhumaBufferRef h)
                (pending h)
  | spk_jhuma =>
      let buffer := jhumaBufferRef h ++ text in
      if isFinal then
        let queue :=
          if truthy (trim buffer)
          then pending h ++ [append_spoken spk_jhuma]
          else pending h in
        mkHooks (transcript h) (streamingUser h) [] (userBufferRef h) [] queue
      else
        mkHooks (transcript h) (streamingUser h) buffer (userBufferRef h) buffer
                (pending h)
  end.

(** The map callback: an updater that appends a [system] entry. *)
Definition onMapAction (origin destination : jsstring) (h : Hooks) : Hooks :=
  mkHooks (transcript h) (streamingUser h) (streamingJhuma h)
          (userBufferRef h) (jhumaBufferRef h)
          (pending h ++ [append_route origin destination]).

(** One delivery of the transcript callback. *)
Record Fragment := mkFragment {
  at_ms : Z;
  who : Speaker;
  fragment_text : jsstring;
  isFinal : bool
}.

Definition deliver (captured : list TranscriptItem) (h : Hooks) (f : Fragment) : Hooks :=
  onTranscript captured (at_ms f) (who f) (fragment_text f) (isFinal f) h.

(** What happens to the component during a call: a delivery of the
    transcript callback, a call of the map callback, or a render at a
    clock reading. *)
Inductive Step :=
| Delivery (f : Fragment)
| MapAction (origin destination : jsstring)
| Render (now : Z).

Definition step (captured : list TranscriptItem) (h : Hooks) (s : Step) : Hooks :=
  match s with
  | Delivery f => deliver captured h f
  | MapAction origin destination => onMapAction origin destination h
  | Render now => render now h
  end.

Definition run (captured : list TranscriptItem) (steps : list Step) (h : Hooks) : Hooks :=
  fold_left (step captured) steps h.

Definition speaker_eqb (a b : Speaker) : bool :=
  match a, b with
  | spk_user, spk_user | spk_jhuma, spk_jhuma => true
  | _, _ => false
  end.

(** The text that a step delivers for a speaker. *)
Definition text_for (s : Speaker) (x : Step) : jsstring :=
  match x with
  | Delivery f => if speaker_eqb (who f) s then fragment_text f else []
  | MapAction _ _ | Render _ => []
  end.

(** The texts delivered for one speaker, in arrival order. *)
Definition texts_of (s : Speaker) (steps : list Step) : jsstring :=
  concat (map (text_for s) steps).

(** Whether a step is a final marker for a speaker. *)
Definition final_for (s : Speaker) (x : Step) : bool :=
  match x with
  | Delivery f => speaker_eqb (who f) s && isFinal f
  | MapAction _ _ | Render _ => false
  end.

(** Whether a final marker for [s] queues an updater: the accumulated
    text is not blank and, for the user, the callback's [isNew] test
    passes. *)
Definition appends (captured : list TranscriptItem) (now : Z) (s : Speaker)
    (buffer : jsstring) : bool :=
  truthy (trim buffer)
  && match s with spk_user => isNew captured now buffer | spk_jhuma => true end.

End Widget.

(* ================================================================== *)
(** * IEEE 754 arithmetic *)
(* ================================================================== *)

Module Ieee.

(** A JavaScript number in the resampler is an IEEE 754 double, taken
    from the Standard Library's [SpecFloat] with a mantissa of 53 bits:
    every operation is the exact result rounded to the nearest double,
    ties to even. *)
Definition double := SpecFloat.spec_float.

Definition NaN : double := SpecFloat.S754_nan.
Definition zero : double := SpecFloat.S754_zero false.

Definition fadd : double -> double -> double := SpecFloat.SFadd 53 1024.
Definition fmul : double -> double -> double := SpecFloat.SFmul 53 1024.
Definition fdiv : double -> double -> double := SpecFloat.SFdiv 53 1024.

(** [x === y] on numbers. *)
Definition feqb : double -> double -> bool := SpecFloat.SFeqb.

(** An integer as a number; exact below 2^53. *)
Definition of_int (z : Z) : double := SpecFloat.binary_normalize 53 1024 z 0 false.

(** The double nearest to a rational. *)
Definition of_Q (q : Q) : double :=
  match Qnum q with
  | 0 => zero
  | Zpos p =>
      fdiv (SpecFloat.S754_finite false p 0) (SpecFloat.S754_finite false (Qden q) 0)
  | Zneg p =>
      fdiv (SpecFloat.S754_finite true p 0) (SpecFloat.S754_finite false (Qden q) 0)
  end.

Definition signed (s : bool) (m : positive) : Z := if s then Zneg m else Zpos m.

(** [Math.fround], which is also what a store into a [Float32Array]
    does: the nearest single-precision value. *)
Definition fround (x : double) : double :=
  match x with
  | SpecFloat.S754_finite s m e => SpecFloat.binary_normalize 24 128 (signed s m) e s
  | _ => x
  end.

(** The single-precision value nearest to a rational. *)
Definition float32 (q : Q) : double := fround (of_Q q).

(** What [Math.floor] and [Math.round] return: an integer, an infinity
    or [NaN].  The sign of a zero is not kept; nothing here reads it. *)
Inductive integral := Int (z : Z) | PosInf | NegInf | NotANumber.

Definition Math_floor (x : double) : integral :=
  match x with
  | SpecFloat.S754_zero _ => Int 0
  | SpecFloat.S754_finite s m e =>
      Int (if 0 <=? e then signed s m * 2 ^ e else signed s m / 2 ^ (- e))
  | SpecFloat.S754_infinity false => PosInf
  | SpecFloat.S754_infinity true => NegInf
  | SpecFloat.S754_nan => NotANumber
  end.

(** [Math.round]: the nearest integer, a tie going up. *)
Definition Math_round (x : double) : integral :=
  match x with
  | SpecFloat.S754_zero _ => Int 0
  | SpecFloat.S754_finite s m e =>
      Int (if 0 <=? e then signed s m * 2 ^ e
           else (2 * signed s m + 2 ^ (- e)) / (2 * 2 ^ (- e)))
  | SpecFloat.S754_infinity false => PosInf
  | SpecFloat.S754_infinity true => NegInf
  | SpecFloat.S754_nan => NotANumber
  end.

(** [j < bound] for an integer [j]. *)
Definition below (j : Z) (bound : integral) : bool :=
  match bound with
  | Int z => j <? z
  | PosInf => true
  | NegInf | NotANumber => false
  end.

(** A number with a sign: every double but [NaN]. *)
Definition sign_is (s : bool) (x : double) : Prop :=
  match x with
  | SpecFloat.S754_zero s' | SpecFloat.S754_infinity s'
  | SpecFloat.S754_finite s' _ _ => s' = s
  | SpecFloat.S754_nan => False
  end.

(** The exact value of a finite double. *)
Definition value (x : double) : option Q :=
  match x with
  | SpecFloat.S754_zero _ => Some 0%Q
  | SpecFloat.S754_finite s m e => Some (inject_Z (signed s m) * Qpower 2 e)%Q
  | _ => None
  end.

End Ieee.

(* ================================================================== *)
(** * The PCM codec *)
(* ================================================================== *)

Module Pcm.

(** A number held by a [Float32Array] or produced by an expression. *)
Inductive number := Num (q : Q) | NaN.
Arguments Num q%_Q.

Inductive JsError := RangeError | NotSupportedError.

(** How a call ends: with a value, or by throwing. *)
Inductive completion (A : Type) := Normal (a : A) | Throw (e : JsError).
Arguments Normal {A} a.
Arguments Throw {A} e.

Definition Uint8Array := list Byte.byte.
Definition Int16Array := list Z.
Definition Float32Array := list number.

Definition num_mul (a b : number) : number :=
  match a, b with Num x, Num y => Num (x * y)%Q | _, _ => NaN end.

Definition Qltb (x y : Q) : bool := negb (Qle_bool y x).

(** [a < b]; a comparison with [NaN] is false. *)
Definition num_ltb (a b : number) : bool :=
  match a, b with Num x, Num y => Qltb x y | _, _ => false end.

Definition Math_min (a b : number) : number :=
  match a, b with
  | Num x, Num y => if Qle_bool x y then Num x else Num y
  | _, _ => NaN
  end.

Definition Math_max (a b : number) : number :=
  match a, b with
  | Num x, Num y => if Qle_bool x y then Num y else Num x
  | _, _ => NaN
  end.

(** Writing [a[i] = v]: a write outside a typed array is ignored. *)
Fixpoint array_set {A : Type} (a : list A) (i : nat) (v : A) : list A :=
  match a, i with
  | [], _ => []
  | _ :: r, O => v :: r
  | x :: r, S i' => x :: array_set r i' v
  end.

(** ** Decoding: [processPcmData] *)

Definition int16_of_bytes (lo hi : Byte.byte) : Z :=
  let u := Z.of_N (Byte.to_N lo) + 256 * Z.of_N (Byte.to_N hi) in
  if u <? 32768 then u else u - 65536.

Fixpoint int16_view (bytes : Uint8Array) : Int16Array :=
  match bytes with
  | lo :: hi :: rest => int16_of_bytes lo hi :: int16_view rest
  | _ => []
  end.

(** [new Int16Array(data.buffer)].  The bytes come from [base64ToBytes],
    whose array owns its buffer, so the buffer is the byte sequence; the
    constructor throws a [RangeError] when the byte length is not a
    multiple of the element size. *)
Definition new_Int16Array (buffer : Uint8Array) : completion Int16Array :=
  if Nat.even (length buffer) then Normal (int16_view buffer) else Throw RangeError.

Record AudioBuffer := mkAudioBuffer {
  numberOfChannels : nat;
  frames : nat;                       (* the [length] attribute *)
  sampleRate : Q;
  channels : list Float32Array
}.

(** The [duration] attribute, in seconds. *)
Definition duration (b : AudioBuffer) : Q :=
  (inject_Z (Z.of_nat (frames b)) / sampleRate b)%Q.

(** [ctx.createBuffer(numChannels, frameCount, sampleRate)].  The frame
    count is converted to an unsigned integer by truncation; Web Audio
    raises [NotSupportedError] for a channel count or a length of zero. *)
Definition createBuffer (numChannels : nat) (frameCount : Q) (rate : Q)
  : completion AudioBuffer :=
  let len := Z.to_nat (Qfloor frameCount) in
  if (numChannels =? 0)%nat || (len =? 0)%nat then Throw NotSupportedError
  else Normal (mkAudioBuffer numChannels len rate
                 (repeat (repeat (Num 0) len) numChannels)).

Definition int16_sample (x : option Z) : number :=
  match x with
  | Some z => Num (inject_Z z / 32768)%Q
  | None => NaN
  end.

(** The loop over [i] of [processPcmData] for one channel. *)
Fixpoint fill_channel (fuel : nat) (i : nat) (frameCount : Q)
    (numChannels channel : nat) (dataInt16 : Int16Array)
    (channelData : Float32Array) : Float32Array :=
  match fuel with
  | O => channelData
  | S fuel' =>
      if Qltb (inject_Z (Z.of_nat i)) frameCount then
        fill_channel fuel' (S i) frameCount numChannels channel dataInt16
          (array_set channelData i
             (int16_sample (nth_error dataInt16 (i * numChannels + channel))))
      else channelData
  end.

Definition fill_channels (frameCount : Q) (numChannels : nat)
    (dataInt16 : Int16Array) (chans : list Float32Array) : list Float32Array :=
  fold_left
    (fun cs channel =>
       match nth_error cs channel with
       | Some channelData =>
           array_set cs channel
             (fill_channel (S (length dataInt16)) 0 frameCount numChannels
                channel dataInt16 channelData)
       | None => cs
       end)
    (seq 0 numChannels) chans.

Definition processPcmData (data : Uint8Array) (rate : Q) (numChannels : nat)
  : completion AudioBuffer :=
  match new_Int16Array data with
  | Throw e => Throw e
  | Normal dataInt16 =>
      let frameCount :=
        (inject_Z (Z.of_nat (length dataInt16)) / inject_Z (Z.of_nat numChannels))%Q in
      match createBuffer numChannels frameCount rate with
      | Throw e => Throw e
      | Normal buffer =>
          Normal (mkAudioBuffer (numberOfChannels buffer) (frames buffer)
                    (sampleRate buffer)
                    (fill_channels frameCount numChannels dataInt16 (channels buffer)))
      end
  end.

(** ** Encoding: the body of [onaudioprocess] after downsampling *)

(** Conversion of a number stored into an [Int16Array]: [NaN] becomes 0,
    a finite value is truncated toward zero and wrapped to 16 bits. *)
Definition ToInt16 (v : number) : Z :=
  match v with
  | NaN => 0
  | Num q =>
      let t := Z.quot (Qnum q) (Zpos (Qden q)) in
      (t + 32768) mod 65536 - 32768
  end.

Definition pcm_sample (x : number) : Z :=
  let s := Math_max (Num (-1)) (Math_min (Num 1) x) in
  ToInt16 (if num_ltb s (Num 0) then num_mul s (Num 32768) else num_mul s (Num 32767)).

Definition to_pcmData (downsampledData : Float32Array) : Int16Array :=
  map pcm_sample downsampledData.

Definition byte_of_Z (z : Z) : Byte.byte :=
  match Byte.of_N (Z.to_N z) with Some b => b | None => Byte.x00 end.

(** [new Uint8Array(pcmData.buffer)]: two bytes per element, low first. *)
Definition bytes_of_int16 (z : Z) : list Byte.byte :=
  let u := z mod 65536 in [byte_of_Z (u mod 256); byte_of_Z (u / 256)].

Definition int16_bytes (pcmData : Int16Array) : Uint8Array :=
  flat_map bytes_of_int16 pcmData.

Definition encodePcm16 (downsampledData : Float32Array) : Uint8Array :=
  int16_bytes (to_pcmData downsampledData).

(** The range of an [Int16Array] element. *)
Definition int16_range (z : Z) : Prop := -32768 <= z <= 32767.

End Pcm.

(* ================================================================== *)
(** * The resampler: [downsampleBuffer] *)
(* ================================================================== *)

Module Resample.

Import Pcm Ieee.

(** The resampler rounds, so its arrays hold doubles: an element of a
    [Float32Array] is a single-precision value, read as the double it
    is and rounded by [fround] when stored. *)
Definition Float32Array := list double.

(** Reading [a[j]] for an integral [j]: outside the array the result is
    [undefined], which arithmetic and a store into a [Float32Array] turn
    into [NaN]. *)
Definition element (a : Float32Array) (j : Z) : double :=
  if j <? 0 then NaN else nth (Z.to_nat j) a NaN.

Definition array_get (a : Float32Array) (j : integral) : double :=
  match j with
  | Int z => element a z
  | PosInf | NegInf | NotANumber => NaN
  end.

(** [new Float32Array(n)]: [NaN] counts as 0; a negative length, or
    one that is not below 2^53, throws a [RangeError].  A length that
    the engine refuses for want of memory is not represented. *)
Definition new_Float32Array (n : integral) : completion Float32Array :=
  match n with
  | Int z =>
      if (z <? 0) || (2 ^ 53 - 1 <? z) then Throw RangeError
      else Normal (repeat zero (Z.to_nat z))
  | NotANumber => Normal []
  | PosInf | NegInf => Throw RangeError
  end.

(** The loop over [j], which counts in integers: the running [sum] and
    [count] of one window. *)
Fixpoint window_loop (fuel : nat) (buffer : Float32Array) (j : Z)
    (nextOffset : integral) (sum : double) (count : Z) : double * Z :=
  match fuel with
  | O => (sum, count)
  | S fuel' =>
      if below j nextOffset && (j <? Z.of_nat (length buffer)) then
        window_loop fuel' buffer (j + 1) nextOffset
          (fadd sum (element buffer j)) (count + 1)
      else (sum, count)
  end.

(** The value stored into [result[i]].  When [offset] is [+Infinity] or
    [NaN] the test [j < buffer.length] fails at once.  It is never
    [-Infinity], with which the loop would not end: the loop over [i]
    runs only for a [ratio] that is not negative. *)
Definition output_sample (buffer : Float32Array) (ratio : double) (i : nat) : double :=
  let offset := Math_floor (fmul (of_int (Z.of_nat i)) ratio) in
  let nextOffset := Math_floor (fmul (of_int (Z.of_nat i + 1)) ratio) in
  let '(sum, count) :=
    match offset with
    | Int o =>
        window_loop (Z.to_nat (Z.of_nat (length buffer) - o)) buffer o nextOffset zero 0
    | PosInf | NegInf | NotANumber => (zero, 0)
    end in
  fround (if 0 <? count then fdiv sum (of_int count) else array_get buffer offset).

(** The loop over [i]. *)
Fixpoint downsample_loop (fuel : nat) (i : nat) (newLength : integral)
    (buffer : Float32Array) (ratio : double) (result : Float32Array) : Float32Array :=
  match fuel with
  | O => result
  | S fuel' =>
      if below (Z.of_nat i) newLength then
        downsample_loop fuel' (S i) newLength buffer ratio
          (array_set result i (output_sample buffer ratio i))
      else result
  end.

(** A rate is a finite number, given by a rational and taken as the
    double nearest to it. *)
Definition downsampleBuffer (buffer : Float32Array) (inputRate outputRate : Q)
  : completion Float32Array :=
  if feqb (of_Q outputRate) (of_Q inputRate) then Normal buffer
  else
    let ratio := fdiv (of_Q inputRate) (of_Q outputRate) in
    let newLength := Math_round (fdiv (of_int (Z.of_nat (length buffer))) ratio) in
    match new_Float32Array newLength with
    | Throw e => Throw e
    | Normal result =>
        Normal (downsample_loop (length result) 0 newLength buffer ratio result)
    end.

(** What the encoder makes of a sample of the resampler.  The encoder
    first clamps to [[-1, 1]], so an infinite sample counts as the bound
    it is clamped to; every other sample is its exact value. *)
Definition encoder_input (x : double) : number :=
  match x with
  | SpecFloat.S754_infinity false => Num 1
  | SpecFloat.S754_infinity true => Num (-1)
  | SpecFloat.S754_nan => Pcm.NaN
  | _ => match value x with Some q => Num q | None => Pcm.NaN end
  end.

End Resample.

(** The words of the specification that the resampler is compared
    with. *)
Module ResampleSpec.

Import Ieee Resample.

(** The window of an output sample: the input samples from [offset] up
    to [nextOffset], exclusive, clipped to the input length. *)
Definition window (buffer : Float32Array) (offset nextOffset : integral)
  : Float32Array :=
  match offset with
  | Int o =>
      let stop :=
        match nextOffset with
        | Int n => Z.min n (Z.of_nat (length buffer))
        | PosInf => Z.of_nat (length buffer)
        | NegInf | NotANumber => o
        end in
      firstn (Z.to_nat (stop - o)) (skipn (Z.to_nat o) buffer)
  | PosInf | NegInf | NotANumber => []
  end.

(** The mean as the code computes it: the samples added to zero from
    left to right and the sum divided by their number, each operation
    rounded to a double. *)
Definition mean (w : Float32Array) : double :=
  SpecFloat.SFdiv 53 1024
    (fold_left (SpecFloat.SFadd 53 1024) w (SpecFloat.S754_zero false))
    (of_int (Z.of_nat (length w))).

(** The claim read in exact arithmetic: the window from
    [floor(i * ratio)] to [floor((i + 1) * ratio)] with the rational
    [ratio = inputRate / outputRate], and the rational mean of its
    samples, or the sample at [floor(i * ratio)] when it is empty. *)
Definition exact_offset (inputRate outputRate : Q) (i : Z) : Z :=
  Qfloor (inject_Z i * (inputRate / outputRate))%Q.

Fixpoint exact_sum (w : Float32Array) : option Q :=
  match w with
  | [] => Some 0%Q
  | x :: r =>
      match value x, exact_sum r with
      | Some q, Some t => Some (q + t)%Q
      | _, _ => None
      end
  end.

Definition exact_sample (buffer : Float32Array) (inputRate outputRate : Q) (i : Z)
  : option Q :=
  let offset := exact_offset inputRate outputRate i in
  let nextOffset := exact_offset inputRate outputRate (i + 1) in
  match window buffer (Int offset) (Int nextOffset) with
  | [] => value (element buffer offset)
  | w => option_map (fun t => t / inject_Z (Z.of_nat (length w)))%Q (exact_sum w)
  end.

End ResampleSpec.


(* ================================================================== *)
(** * The live connection: playback, teardown, connect *)
(* ================================================================== *)

Module Live.

Import Pcm.

Inductive Ctx := InputCtx | OutputCtx.

(** An [AudioContext] of the call: not yet constructed, open, or closed. *)
Inductive CtxState := NotCreated | Running | Closed.

(** A [MediaStreamTrack] of the microphone stream. *)
Record Track := mkTrack {
  track_id : nat;
  enabled : bool;
  stopped : bool
}.

(** An [AudioBufferSourceNode] that was started; [node] is its identity. *)
Record Source := mkSource {
  node : nat;
  buffer : AudioBuffer;
  startAt : Q
}.

(** Calls that leave the closure: the caller's callbacks, the platform,
    the remote session. *)
Inductive Effect :=
| OnConnect
| OnDisconnect
| OnError
| NewAudioContext (c : Ctx)
| GetUserMedia
| LiveConnect
| SourceStart (n : nat) (when : Q)
| SourceStop (n : nat)
| TrackStop (t : nat)
| ContextClose (c : Ctx)
| SessionClose
| SendAudio (pcm : Uint8Array)
| SendVideo (data : jsstring)
| SendText (text : jsstring).

(** Where the asynchronous [cleanup] stands: not called, suspended at
    its first or second [await], or finished. *)
Inductive CleanupPc := NotCalled | AwaitInputClose | AwaitOutputClose | Finished.

(** The variables of one [connectToJhumaLive] call, with the log. *)
Record State := mkState {
  inputAudioContext : CtxState;
  outputAudioContext : CtxState;
  stream : option (list Track);
  nextStartTime : Q;
  sources : list Source;          (* a [Set], in insertion order *)
  created : nat;                  (* source nodes constructed so far *)
  isCleaningUp : bool;
  isSocketOpen : bool;
  cleanup_pc : CleanupPc;
  after_cleanup : list Effect;    (* callbacks chained on the running [cleanup] *)
  log : list Effect
}.

Definition blank : State :=
  mkState NotCreated NotCreated None 0%Q [] 0 false false NotCalled [] [].

Definition set_inputAudioContext (v : CtxState) (s : State) : State :=
  mkState v (outputAudioContext s) (stream s) (nextStartTime s) (sources s)
    (created s) (isCleaningUp s) (isSocketOpen s) (cleanup_pc s) (after_cleanup s) (log s).

Definition set_outputAudioContext (v : CtxState) (s : State) : State :=
  mkState (inputAudioContext s) v (stream s) (nextStartTime s) (sources s)
    (created s) (isCleaningUp s) (isSocketOpen s) (cleanup_pc s) (after_cleanup s) (log s).

Definition set_stream (v : option (list Track)) (s : State) : State :=
  mkState (inputAudioContext s) (outputAudioContext s) v (nextStartTime s) (sources s)
    (created s) (isCleaningUp s) (isSocketOpen s) (cleanup_pc s) (after_cleanup s) (log s).

Definition set_nextStartTime (v : Q) (s : State) : State :=
  mkState (inputAudioContext s) (outputAudioContext s) (stream s) v (sources s)
    (created s) (isCleaningUp s) (isSocketOpen s) (cleanup_pc s) (after_cleanup s) (log s).

Definition set_sources (v : list Source) (s : State) : State :=
  mkState (inputAudioContext s) (outputAudioContext s) (stream s) (nextStartTime s) v
    (created s) (isCleaningUp s) (isSocketOpen s) (cleanup_pc s) (after_cleanup s) (log s).

Definition set_created (v : nat) (s : State) : State :=
  mkState (inputAudioContext s) (outputAudioContext s) (stream s) (nextStartTime s)
    (sources s) v (isCleaningUp s) (isSocketOpen s) (cleanup_pc s) (after_cleanup s) (log s).

Definition set_isCleaningUp (v : bool) (s : State) : State :=
  mkState (inputAudioContext s) (outputAudioContext s) (stream s) (nextStartTime s)
    (sources s) (created s) v (isSocketOpen s) (cleanup_pc s) (after_cleanup s) (log s).

Definition set_isSocketOpen (v : bool) (s : State) : State :=
  mkState (inputAudioContext s) (outputAudioContext s) (stream s) (nextStartTime s)
    (sources s) (created s) (isCleaningUp s) v (cleanup_pc s) (after_cleanup s) (log s).

Definition set_cleanup_pc (v : CleanupPc) (s : State) : State :=
  mkState (inputAudioContext s) (outputAudioContext s) (stream s) (nextStartTime s)
    (sources s) (created s) (isCleaningUp s) (isSocketOpen s) v (after_cleanup s) (log s).

Definition set_after_cleanup (v : list Effect) (s : State) : State :=
  mkState (inputAudioContext s) (outputAudioContext s) (stream s) (nextStartTime s)
    (sources s) (created s) (isCleaningUp s) (isSocketOpen s) (cleanup_pc s) v (log s).

Definition emit (es : list Effect) (s : State) : State :=
  mkState (inputAudioContext s) (outputAudioContext s) (stream s) (nextStartTime s)
    (sources s) (created s) (isCleaningUp s) (isSocketOpen s) (cleanup_pc s)
    (after_cleanup s) (log s ++ es).

(** ** Playback: the audio and the interrupted branch of [onmessage] *)

(** [Math.max] on two clock values. *)
Definition later (a b : Q) : Q := if Qle_bool a b then b else a.

(** The audio branch, from the decoded bytes on; [currentTime] is the
    reading of [outputAudioContext.currentTime].  When decoding throws,
    the handler ends there, after the assignment to [nextStartTime]. *)
Definition play_chunk (currentTime : Q) (pcmBytes : Uint8Array) (s : State)
  : completion State :=
  let s1 := set_nextStartTime (later (nextStartTime s) currentTime) s in
  match processPcmData pcmBytes 24000 1 with
  | Throw e => Throw e
  | Normal audioBuffer =>
      let source := mkSource (created s1) audioBuffer (nextStartTime s1) in
      let s2 := emit [SourceStart (node source) (nextStartTime s1)] (set_created (S (created s1)) s1) in
      let s3 := set_nextStartTime (nextStartTime s2 + duration audioBuffer)%Q s2 in
      Normal (set_sources (sources s3 ++ [source]) s3)
  end.

(** The state left behind when [play_chunk] throws. *)
Definition play_chunk_aborted (currentTime : Q) (s : State) : State :=
  set_nextStartTime (later (nextStartTime s) currentTime) s.

Definition stop_all (s : State) : State :=
  set_sources [] (emit (map (fun x => SourceStop (node x)) (sources s)) s).

(** The interrupted branch. *)
Definition interrupt (s : State) : State :=
  set_nextStartTime 0%Q (stop_all s).

Record Message := mkMessage {
  audio : option Uint8Array;       (* the inline data of the first part, decoded *)
  interrupted : bool
}.

(** [onmessage], restricted to the branches that touch playback. *)
Definition onmessage (currentTime : Q) (m : Message) (s : State) : State :=
  match audio m with
  | Some pcmBytes =>
      match play_chunk currentTime pcmBytes s with
      | Normal s' => if interrupted m then interrupt s' else s'
      | Throw _ => play_chunk_aborted currentTime s
      end
  | None => if interrupted m then interrupt s else s
  end.

(** The [ended] listener of a source: [sources.delete(source)]. *)
Definition onended (n : nat) (s : State) : State :=
  set_sources (filter (fun x => negb (Nat.eqb (node x) n)) (sources s)) s.

(** ** Teardown *)

Definition stop_track (t : Track) : Track := mkTrack (track_id t) (enabled t) true.

Definition stop_tracks (s : State) : State :=
  match stream s with
  | Some ts =>
      set_stream (Some (map stop_track ts))
        (emit (map (fun t => TrackStop (track_id t)) ts) s)
  | None => s
  end.

(** [safeCloseAudioContext], up to its [await]. *)
Definition safeClose_input (s : State) : State :=
  match inputAudioContext s with
  | Closed => s
  | _ => emit [ContextClose InputCtx] s
  end.

Definition safeClose_output (s : State) : State :=
  match outputAudioContext s with
  | Closed => s
  | _ => emit [ContextClose OutputCtx] s
  end.

(** A call of [cleanup], run to its first [await]. *)
Definition cleanup (s : State) : State :=
  if isCleaningUp s then s
  else
    let s1 := set_isSocketOpen false (set_isCleaningUp true s) in
    let s2 := stop_all s1 in
    let s3 := stop_tracks s2 in
    set_cleanup_pc AwaitInputClose (safeClose_input s3).

(** The running [cleanup] resumes after an [await]. *)
Definition resume (s : State) : State :=
  match cleanup_pc s with
  | AwaitInputClose =>
      let s1 := match inputAudioContext s with
                | NotCreated => s
                | _ => set_inputAudioContext Closed s
                end in
      set_cleanup_pc AwaitOutputClose (safeClose_output s1)
  | AwaitOutputClose =>
      let s1 := match outputAudioContext s with
                | NotCreated => s
                | _ => set_outputAudioContext Closed s
                end in
      set_after_cleanup [] (emit (after_cleanup s1) (set_cleanup_pc Finished s1))
  | _ => s
  end.

(** [f] is chained on the promise of a [cleanup] call: it runs at once
    when that call returned at the guard, and when the running cleanup
    ends otherwise. *)
Definition cleanup_then (f : Effect) (s : State) : State :=
  if isCleaningUp s then emit [f] s
  else let s' := cleanup s in set_after_cleanup (after_cleanup s' ++ [f]) s'.

Definition onopen (s : State) : State :=
  emit [OnConnect] (set_isSocketOpen true s).

Definition onclose (s : State) : State :=
  cleanup_then OnDisconnect (set_isSocketOpen false s).

Definition onerror (s : State) : State :=
  cleanup_then OnDisconnect (emit [OnError] s).

(** ** The connection object *)

Record LiveConnection := mkConnection {
  disconnect : State -> State;
  sendVideoFrame : jsstring -> State -> State;
  sendText : jsstring -> State -> State;
  setMuted : bool -> State -> State
}.

(** The object returned when the key is missing: four empty functions. *)
Definition inert : LiveConnection :=
  mkConnection (fun s => s) (fun _ s => s) (fun _ s => s) (fun _ s => s).

Definition set_enabled (v : bool) (t : Track) : Track :=
  mkTrack (track_id t) v (stopped t).

(** The object returned once the session is established. *)
Definition active : LiveConnection :=
  mkConnection
    (fun s => emit [SessionClose] (cleanup s))
    (fun base64Image s => if isSocketOpen s then emit [SendVideo base64Image] s else s)
    (fun text s => if isSocketOpen s then emit [SendText text] s else s)
    (fun muted s => set_stream (option_map (map (set_enabled (negb muted))) (stream s)) s).

(** ** Capture: [onaudioprocess] *)

Definition onaudioprocess (inputData : Resample.Float32Array) (inputSampleRate : Q)
    (s : State) : State :=
  if negb (isSocketOpen s) || isCleaningUp s then s
  else
    match Resample.downsampleBuffer inputData inputSampleRate 16000 with
    | Normal downsampledData =>
        emit [SendAudio (encodePcm16 (map Resample.encoder_input downsampledData))] s
    | Throw _ => s
    end.

(** ** [connectToJhumaLive] *)

(** What the surroundings answer during one call. *)
Record Env := mkEnv {
  API_KEY : option jsstring;         (* [process.env.API_KEY] *)
  microphone : option (list nat);    (* [getUserMedia]: tracks, or a rejection *)
  handshake : bool                   (* whether the session promise fulfils *)
}.

Definition key_missing (env : Env) : bool :=
  match API_KEY env with
  | Some k => negb (truthy k)
  | None => true
  end.

Inductive Settled := Fulfilled (c : LiveConnection) | Rejected.

Definition connectToJhumaLive (env : Env) (s : State) : State * Settled :=
  if key_missing env then (emit [OnError] s, Fulfilled inert)
  else
    let s1 :=
      emit [NewAudioContext InputCtx; NewAudioContext OutputCtx]
        (set_outputAudioContext Running (set_inputAudioContext Running s)) in
    let s2 := set_sources [] (set_nextStartTime 0%Q s1) in
    let s3 := emit [GetUserMedia] s2 in
    match microphone env with
    | None => (s3, Rejected)
    | Some ids =>
        let s4 := set_stream (Some (map (fun t => mkTrack t true false) ids)) s3 in
        let s5 := set_isSocketOpen false (set_isCleaningUp false s4) in
        let s6 := emit [LiveConnect] s5 in
        if handshake env then (s6, Fulfilled active)
        else (resume (resume (cleanup s6)), Rejected)
    end.

(** ** Traces of teardown events *)

Inductive Event := Disconnect | RemoteClose | RemoteError | Resume.

Definition step (s : State) (e : Event) : State :=
  match e with
  | Disconnect => disconnect active s
  | RemoteClose => onclose s
  | RemoteError => onerror s
  | Resume => resume s
  end.

Definition run (es : list Event) (s : State) : State := fold_left step es s.

End Live.

(** The words of the specification that the connection is compared with. *)
Module LiveSpec.

Import Pcm Live.

(** The schedule of the playback pipeline: each chunk, given as the clock
    reading at its arrival and its duration, starts at the later of the
    clock and the next free time, and moves the next free time to its
    end. *)
Fixpoint schedule (nextFreeTime : Q) (chunks : list (Q * Q)) : list Q :=
  match chunks with
  | [] => []
  | (now, d) :: rest =>
      let start := later nextFreeTime now in
      start :: schedule (start + d)%Q rest
  end.

Fixpoint schedule_end (nextFreeTime : Q) (chunks : list (Q * Q)) : Q :=
  match chunks with
  | [] => nextFreeTime
  | (now, d) :: rest => schedule_end (later nextFreeTime now + d)%Q rest
  end.

(** Seconds of 24 kHz mono 16-bit audio held by a chunk. *)
Definition chunk_duration (pcmBytes : Uint8Array) : Q :=
  (inject_Z (Z.of_nat (length pcmBytes / 2)) / 24000)%Q.

(** A chunk that holds a whole number of samples, and at least one. *)
Definition decodable (pcmBytes : Uint8Array) : bool :=
  Nat.even (length pcmBytes) && (2 <=? length pcmBytes)%nat.

(** Audio messages arriving one after the other. *)
Definition enqueue_all (chunks : list (Q * Uint8Array)) (s : State) : State :=
  fold_left (fun st c => onmessage (fst c) (mkMessage (Some (snd c)) false) st) chunks s.

(** The release side effects of teardown. *)
Definition is_release (e : Effect) : bool :=
  match e with
  | SourceStop _ | TrackStop _ | ContextClose _ => true
  | _ => false
  end.

Definition tracks_of (s : State) : list Track :=
  match stream s with Some ts => ts | None => [] end.

(** What teardown has to release in a state: every source in the set,
    every microphone track, the two contexts. *)
Definition releases (s : State) : list Effect :=
  map (fun x => SourceStop (node x)) (sources s)
  ++ map (fun t => TrackStop (track_id t)) (tracks_of s)
  ++ [ContextClose InputCtx; ContextClose OutputCtx].

(** A connection that was established and has not begun teardown. *)
Definition established (s : State) : Prop :=
  isCleaningUp s = false
  /\ cleanup_pc s = NotCalled
  /\ after_cleanup s = []
  /\ inputAudioContext s = Running
  /\ outputAudioContext s = Running
  /\ stream s <> None
  /\ NoDup (map track_id (tracks_of s))
  /\ NoDup (map node (sources s)).

(** The first part of the releases: all but closing the output context. *)
Definition first_releases (s : State) : list Effect :=
  map (fun x => SourceStop (node x)) (sources s)
  ++ map (fun t => TrackStop (track_id t)) (tracks_of s)
  ++ [ContextClose InputCtx].

(** What holds of a state reached from [s0] by teardown events. *)
Definition torn (s0 s : State) : Prop :=
  Forall (fun e => is_release e = false) (after_cleanup s)
  /\ exists delta,
      log s = log s0 ++ delta
      /\ match cleanup_pc s with
         | NotCalled =>
             isCleaningUp s = false
             /\ sources s = sources s0
             /\ stream s = stream s0
             /\ inputAudioContext s = Running
             /\ outputAudioContext s = Running
             /\ filter is_release delta = []
         | AwaitInputClose =>
             isCleaningUp s = true
             /\ outputAudioContext s = Running
             /\ filter is_release delta = first_releases s0
         | AwaitOutputClose | Finished =>
             isCleaningUp s = true
             /\ filter is_release delta = releases s0
         end.

(** Zero-valued PCM of a given byte length. *)
Definition silence (n : Z) : Uint8Array := repeat Byte.x00 (Z.to_nat n).

(** The state of a call established with one microphone track, as
    [connectToJhumaLive] leaves it. *)
Definition fresh_call : State :=
  fst (connectToJhumaLive (mkEnv (Some (lit "key")) (Some [0%nat]) true) blank).

(** A call with one source scheduled at 10 s that plays for a second. *)
Definition playing : State :=
  set_created 1
    (set_sources [mkSource 0 (mkAudioBuffer 1 (Z.to_nat 24000) 24000 [repeat (Num 0) (Z.to_nat 24000)]) 10]
       (set_nextStartTime 11 (set_isSocketOpen true fresh_call))).

End LiveSpec.

(* ================================================================== *)
(** * Properties of the call widget *)
(* ================================================================== *)

Section WidgetFacts.

Import Widget.

Variable captured : list TranscriptItem.

Lemma run_cons (x : Step) (steps : list Step) (h : Hooks) :
  run captured (x :: steps) h = run captured steps (step captured h x).
Proof. reflexivity. Qed.

Lemma speaker_eqb_eq (a b : Speaker) : speaker_eqb a b = true <-> a = b.
Proof. destruct a, b; simpl; split; congruence. Qed.

(** A step that is not a final marker for a speaker adds its text for
    that speaker to the speaker's buffer. *)
Lemma step_buffer (s : Speaker) (x : Step) (h : Hooks) :
  final_for s x = false ->
  buffer_of s (step captured h x) = buffer_of s h ++ text_for s x.
Proof.
  destruct x as [[now w t fin]|o d|now];
    cbn [final_for step text_for who isFinal fragment_text].
  - unfold deliver, onTranscript; cbn [at_ms who fragment_text isFinal].
    destruct w, s, fin; cbn; intros H; try discriminate H;
      rewrite ?app_nil_r; reflexivity.
  - intros _. destruct s; cbn; now rewrite app_nil_r.
  - intros _. destruct s; cbn; now rewrite app_nil_r.
Qed.

Lemma texts_of_cons (s : Speaker) (x : Step) (steps : list Step) :
  texts_of s (x :: steps) = text_for s x ++ texts_of s steps.
Proof. reflexivity. Qed.

(** While no final marker arrives for a speaker, that speaker's buffer
    grows by the delivered texts in arrival order, whatever is rendered
    in between. *)
Lemma buffer_accumulates (s : Speaker) (steps : list Step) :
  forall h,
    (forall x, In x steps -> final_for s x = false) ->
    buffer_of s (run captured steps h) = buffer_of s h ++ texts_of s steps.
Proof.
  induction steps as [|x steps IH]; intros h Hnf.
  - cbn. now rewrite app_nil_r.
  - rewrite run_cons, IH by (intros y Hy; apply Hnf; now right).
    rewrite step_buffer by (apply Hnf; now left).
    rewrite texts_of_cons. now rewrite app_assoc.
Qed.

(** What a final marker does, whatever the state it arrives in: it
    queues at most one updater and empties the buffer and the live
    view; the transcript itself is left to the next render. *)
Lemma final_queues (s : Speaker) (now : Z) (t : jsstring) (h : Hooks) :
  let h' := onTranscript captured now s t true h in
  let acc := buffer_of s h ++ t in
  pending h' =
    pending h ++ (if appends captured now s acc then [append_spoken s] else [])
  /\ transcript h' = transcript h
  /\ buffer_of s h' = [] /\ live_of s h' = [].
Proof.
  destruct s; cbn; unfold appends.
  - destruct (truthy (trim (userBufferRef h ++ t)) && isNew captured now (userBufferRef h ++ t));
      cbn; rewrite ?app_nil_r; auto.
  - rewrite andb_true_r.
    destruct (truthy (trim (jhumaBufferRef h ++ t)));
      cbn; rewrite ?app_nil_r; auto.
Qed.

(** A final marker followed by a render, with no delivery in between:
    the entry that the render appends has the empty text, whatever was
    accumulated, because the updater reads the buffer ref after the
    callback has emptied it. *)
Lemma final_then_render (s : Speaker) (now rendered : Z) (t : jsstring) (h : Hooks) :
  pending h = [] ->
  let acc := buffer_of s h ++ t in
  transcript (render rendered (onTranscript captured now s t true h)) =
    transcript h
    ++ (if appends captured now s acc
        then [mkItem (toString rendered) (sender_of s) (Some []) None]
        else []).
Proof.
  intros Hp acc.
  destruct (final_queues s now t h) as (Hq & Ht & Hb & _).
  cbv zeta in Hq, Ht, Hb. fold acc in Hq.
  unfold render. cbn [transcript]. rewrite Hq, Ht, Hp. cbn [app].
  destruct (appends captured now s acc); cbn [fold_left run_updater];
    [rewrite Hb|]; now rewrite ?app_nil_r.
Qed.

End WidgetFacts.

(** The list that [isNew] reads is the one captured when the call was
    started; in a first call it is empty and the test always passes. *)
Lemma isNew_first_call (now : Z) (b : jsstring) : Widget.isNew [] now b = true.
Proof. reflexivity. Qed.

(** The test does suppress a duplicate that it can see: when the call is
    started with a rendered transcript that holds a user entry "hi" half
    a second old, a final "hi" queues nothing and the next render leaves
    the new transcript empty. *)
Lemma duplicate_of_captured_entry_suppressed :
  let previous :=
    Widget.mkHooks
      [Widget.mkItem (lit "1729999999500") Widget.user (Some (lit "hi")) None]
      [] [] [] [] [] in
  let '(captured, h0) := Widget.toggleSession_start previous in
  Widget.transcript
    (Widget.render 1730000000016
       (Widget.onTranscript captured 1730000000000 Widget.spk_user (lit "hi") true h0))
  = [].
Proof. vm_compute. reflexivity. Qed.

(** C1, on the code: two identical finalized user utterances one second
    apart, in a call started from the widget's initial state and with a
    render after each, both append an entry to the transcript; the
    duplicate test reads the transcript captured when the call was
    started and not the one being built.  (The two entries have the empty
    text: see C4.) *)
Theorem duplicate_within_window_appended_twice :
  let '(captured, h0) := Widget.toggleSession_start Widget.initial in
  let h :=
    Widget.run captured
      [Widget.Delivery (Widget.mkFragment 1730000000000 Widget.spk_user (lit "hi") true);
       Widget.Render 1730000000016;
       Widget.Delivery (Widget.mkFragment 1730000001000 Widget.spk_user (lit "hi") true);
       Widget.Render 1730000001016] h0 in
  Widget.transcript h =
    [Widget.mkItem (lit "1730000000016") Widget.user (Some []) None;
     Widget.mkItem (lit "1730000001016") Widget.user (Some []) None]
  /\ length (Widget.transcript h) = 2%nat.
Proof. vm_compute. split; reflexivity. Qed.

(** C4, on the code: the fragments "Hel" and "lo", the second with the
    final marker, in a call started from the widget's initial state and
    with a render after each delivery.  The buffer holds "Hel" and then,
    inside the final call, "Hello"; the final marker queues one entry and
    empties the buffer and the live view; the render then appends an
    entry whose text is empty, not "Hello", because the queued updater
    reads the buffer ref when it is called.  The same happens when the
    final marker comes with an empty text after both fragments, the way
    [onmessage] delivers it, and for the assistant. *)
Theorem final_marker_appends_empty_text :
  let '(captured, h0) := Widget.toggleSession_start Widget.initial in
  let h1 :=
    Widget.run captured
      [Widget.Delivery (Widget.mkFragment 1730000000000 Widget.spk_user (lit "Hel") false);
       Widget.Render 1730000000016] h0 in
  let h2 :=
    Widget.run captured
      [Widget.Delivery (Widget.mkFragment 1730000000400 Widget.spk_user (lit "lo") true);
       Widget.Render 1730000000416] h1 in
  let h2' :=
    Widget.run captured
      [Widget.Delivery (Widget.mkFragment 1730000000400 Widget.spk_user (lit "lo") false);
       Widget.Render 1730000000416;
       Widget.Delivery (Widget.mkFragment 1730000000800 Widget.spk_user [] true);
       Widget.Render 1730000000816] h1 in
  let j2 :=
    Widget.run captured
      [Widget.Delivery (Widget.mkFragment 1730000000000 Widget.spk_jhuma (lit "Hel") false);
       Widget.Render 1730000000016;
       Widget.Delivery (Widget.mkFragment 1730000000400 Widget.spk_jhuma (lit "lo") true);
       Widget.Render 1730000000416] h0 in
  Widget.userBufferRef h1 = lit "Hel"
  /\ Widget.transcript h2
     = [Widget.mkItem (lit "1730000000416") Widget.user (Some []) None]
  /\ Widget.transcript h2
     <> [Widget.mkItem (lit "1730000000416") Widget.user (Some (lit "Hello")) None]
  /\ Widget.userBufferRef h2 = [] /\ Widget.streamingUser h2 = []
  /\ Widget.transcript h2'
     = [Widget.mkItem (lit "1730000000816") Widget.user (Some []) None]
  /\ Widget.transcript j2
     = [Widget.mkItem (lit "1730000000416") Widget.jhuma (Some []) None].
Proof.
  vm_compute. repeat split; try reflexivity. discriminate.
Qed.

(* ================================================================== *)
(** * Properties of the PCM codec *)
(* ================================================================== *)

Ltac nat_cases :=
  repeat match goal with
    | |- context [Nat.leb ?a ?b] => destruct (Nat.leb_spec a b)
    | |- context [Nat.ltb ?a ?b] => destruct (Nat.ltb_spec a b)
    | |- context [Nat.eqb ?a ?b] => destruct (Nat.eqb_spec a b)
    | |- context [Z.ltb ?a ?b] => destruct (Z.ltb_spec a b)
    end; cbn [andb orb negb].

Section PcmFacts.

Import Pcm.

Lemma array_set_length {A : Type} (a : list A) :
  forall i v, length (array_set a i v) = length a.
Proof.
  induction a as [|x a IH]; intros [|i] v; simpl; auto.
Qed.

Lemma array_set_nth_error {A : Type} (a : list A) :
  forall i v k,
    nth_error (array_set a i v) k =
    if (Nat.eqb k i && Nat.ltb i (length a))%bool then Some v else nth_error a k.
Proof.
  induction a as [|x a IH]; intros i v k.
  - simpl. destruct i; simpl; rewrite andb_false_r; reflexivity.
  - destruct i as [|i], k as [|k]; simpl; try reflexivity.
    rewrite IH. reflexivity.
Qed.

Lemma Qltb_lt (x y : Q) : Qltb x y = true <-> (x < y)%Q.
Proof.
  unfold Qltb. rewrite negb_true_iff.
  split; intros H.
  - apply Qnot_le_lt. intros Hle. apply Qle_bool_iff in Hle. congruence.
  - destruct (Qle_bool y x) eqn:E; auto.
    apply Qle_bool_iff in E. exfalso. apply (Qlt_not_le _ _ H E).
Qed.

Lemma inject_nat_div_lt (i n nc : nat) :
  (0 < nc)%nat ->
  Qltb (inject_Z (Z.of_nat i)) (inject_Z (Z.of_nat n) / inject_Z (Z.of_nat nc))
  = (i * nc <? n)%nat.
Proof.
  intros Hnc.
  assert (Hpos : (0 < inject_Z (Z.of_nat nc))%Q).
  { change 0%Q with (inject_Z 0). rewrite <- Zlt_Qlt. lia. }
  apply eq_true_iff_eq. rewrite Qltb_lt, Nat.ltb_lt.
  split; intros H.
  - apply (Qmult_lt_compat_r _ _ _ Hpos) in H.
    rewrite Qmult_comm, (Qmult_comm (_ / _)), Qmult_div_r in H
      by (intros E; rewrite E in Hpos; discriminate).
    rewrite <- inject_Z_mult, <- Zlt_Qlt in H. lia.
  - apply Qlt_shift_div_l; auto.
    rewrite <- inject_Z_mult, <- Zlt_Qlt. lia.
Qed.

Lemma fill_channel_spec (nc ch : nat) (d : Int16Array) :
  (0 < nc)%nat ->
  let fc := (inject_Z (Z.of_nat (length d)) / inject_Z (Z.of_nat nc))%Q in
  forall fuel i cd,
    (length d < i + fuel)%nat ->
    length (fill_channel fuel i fc nc ch d cd) = length cd
    /\ forall k,
        nth_error (fill_channel fuel i fc nc ch d cd) k =
        if ((i <=? k)%nat && (k * nc <? length d)%nat && (k <? length cd)%nat)%bool
        then Some (int16_sample (nth_error d (k * nc + ch)))
        else nth_error cd k.
Proof.
  intros Hnc fc.
  induction fuel as [|fuel IH]; intros i cd Hfuel; cbn [fill_channel].
  - split; [reflexivity|]. intros k. nat_cases; try reflexivity; nia.
  - unfold fc at 1 3. rewrite inject_nat_div_lt by assumption. fold fc.
    destruct (Nat.ltb_spec (i * nc) (length d)) as [Hlt|Hge].
    + destruct (IH (S i) (array_set cd i (int16_sample (nth_error d (i * nc + ch)))))
        as [Hlen Hnth]; [lia|].
      rewrite array_set_length in Hlen, Hnth.
      split; [exact Hlen|]. intros k. rewrite Hnth, array_set_nth_error.
      nat_cases; subst; try reflexivity; try lia.
    + split; [reflexivity|]. intros k. nat_cases; try reflexivity; nia.
Qed.

Lemma half_step (n : nat) : (S (S n) / 2 = S (n / 2))%nat.
Proof.
  change (S (S n)) with (1 * 2 + n)%nat.
  rewrite Nat.div_add_l by lia. reflexivity.
Qed.

Lemma int16_view_length (data : Uint8Array) :
  length (int16_view data) = (length data / 2)%nat.
Proof.
  remember (length data) as n eqn:Hn.
  revert data Hn.
  induction n as [n IH] using lt_wf_ind; intros data Hn.
  destruct data as [|lo [|hi rest]]; subst n; try reflexivity.
  cbn [int16_view length].
  rewrite half_step. f_equal.
  apply (IH (length rest)); [cbn [length]; lia | reflexivity].
Qed.

Lemma int16_view_nth (data : Uint8Array) :
  forall k, (k < length data / 2)%nat ->
    exists lo hi,
      nth_error data (2 * k) = Some lo
      /\ nth_error data (2 * k + 1) = Some hi
      /\ nth_error (int16_view data) k = Some (int16_of_bytes lo hi).
Proof.
  remember (length data) as n eqn:Hn.
  revert data Hn.
  induction n as [n IH] using lt_wf_ind; intros data Hn k Hk.
  destruct data as [|lo [|hi rest]]; subst n.
  - cbn in Hk. lia.
  - cbn in Hk. lia.
  - cbn [length] in Hk. rewrite half_step in Hk.
    destruct k as [|k].
    + exists lo, hi. cbn. auto.
    + destruct (IH (length rest)) with (data := rest) (k := k)
        as (lo' & hi' & H1 & H2 & H3); [cbn [length]; lia | reflexivity | lia |].
      exists lo', hi'.
      replace (2 * S k)%nat with (S (S (2 * k))) by lia.
      replace (S (S (2 * k)) + 1)%nat with (S (S (2 * k + 1))) by lia.
      cbn [nth_error int16_view]. auto.
Qed.

Lemma Qfloor_nat_div (n nc : nat) :
  (0 < nc)%nat ->
  Z.to_nat (Qfloor (inject_Z (Z.of_nat n) / inject_Z (Z.of_nat nc))) = (n / nc)%nat.
Proof.
  intros Hnc.
  destruct (Z.of_nat nc) as [|p|p] eqn:E; try lia.
  unfold Qdiv, Qinv, Qmult, Qfloor, inject_Z; simpl.
  rewrite Z.mul_1_r, <- E, <- Nat2Z.inj_div, Nat2Z.id. reflexivity.
Qed.

Lemma fill_channels_spec (fc : Q) (nc : nat) (d : Int16Array) :
  let fill c cd := fill_channel (S (length d)) 0 fc nc c d cd in
  let F := fun cs channel =>
             match nth_error cs channel with
             | Some channelData => array_set cs channel (fill channel channelData)
             | None => cs
             end in
  forall m start cs,
    (start + m <= length cs)%nat ->
    length (fold_left F (seq start m) cs) = length cs
    /\ forall c,
        nth_error (fold_left F (seq start m) cs) c =
        if ((start <=? c)%nat && (c <? start + m)%nat)%bool
        then option_map (fill c) (nth_error cs c)
        else nth_error cs c.
Proof.
  intros fill F.
  induction m as [|m IH]; intros start cs Hlen; cbn [seq fold_left].
  - split; [reflexivity|]. intros c. nat_cases; try reflexivity; lia.
  - assert (Hs : (start < length cs)%nat) by lia.
    destruct (nth_error cs start) as [cd|] eqn:Ecd;
      [|apply nth_error_None in Ecd; lia].
    assert (HF : F cs start = array_set cs start (fill start cd))
      by (unfold F; now rewrite Ecd).
    rewrite HF.
    destruct (IH (S start) (array_set cs start (fill start cd))) as [Hl Hn];
      [rewrite array_set_length; lia|].
    rewrite array_set_length in Hl.
    split; [exact Hl|]. intros c. rewrite Hn, array_set_nth_error.
    nat_cases; subst; try reflexivity; try lia.
    rewrite Ecd. reflexivity.
Qed.

Lemma nth_error_repeat {A : Type} (x : A) (n k : nat) :
  (k < n)%nat -> nth_error (repeat x n) k = Some x.
Proof.
  revert k; induction n as [|n IH]; intros [|k] Hk; simpl; try lia; auto.
  apply IH. lia.
Qed.

(** Decoding a whole number of frames. *)
Lemma decode_samples (data : Uint8Array) (rate : Q) (numChannels : nat) :
  Nat.even (length data) = true ->
  (0 < numChannels)%nat ->
  (numChannels <= length data / 2)%nat ->
  exists b,
    processPcmData data rate numChannels = Normal b
    /\ numberOfChannels b = numChannels
    /\ frames b = (length data / 2 / numChannels)%nat
    /\ sampleRate b = rate
    /\ length (channels b) = numChannels
    /\ forall channel, (channel < numChannels)%nat ->
         exists channelData,
           nth_error (channels b) channel = Some channelData
           /\ length channelData = frames b
           /\ forall i, (i < frames b)%nat ->
                (i * numChannels + channel < length data / 2)%nat
                /\ nth_error channelData i
                   = Some (int16_sample
                             (nth_error (int16_view data) (i * numChannels + channel))).
Proof.
  unfold processPcmData, new_Int16Array.
  intros -> Hnc Hlen. unfold createBuffer.
  set (d := int16_view data).
  assert (Hd : length d = (length data / 2)%nat) by apply int16_view_length.
  rewrite Qfloor_nat_div by lia.
  set (L := (length d / numChannels)%nat).
  assert (HL : (0 < L)%nat) by (apply Nat.div_str_pos; lia).
  assert (HLn : (numChannels * L <= length d)%nat) by (apply Nat.Div0.mul_div_le).
  destruct (Nat.eqb_spec numChannels 0) as [|_]; [lia|].
  destruct (Nat.eqb_spec L 0) as [|_]; [lia|].
  cbn [orb numberOfChannels frames sampleRate channels].
  eexists. split; [reflexivity|].
  cbn [numberOfChannels frames sampleRate channels].
  unfold fill_channels.
  pose proof (fill_channels_spec
                (inject_Z (Z.of_nat (length d)) / inject_Z (Z.of_nat numChannels))
                numChannels d numChannels 0
                (repeat (repeat (Num 0) L) numChannels)) as Hfold.
  cbv zeta in Hfold.
  destruct Hfold as [Hfl Hfn]; [rewrite repeat_length; lia|].
  rewrite repeat_length in Hfl.
  split; [reflexivity|].
  split; [unfold L; now rewrite Hd|].
  split; [reflexivity|].
  split; [exact Hfl|].
  intros channel Hch.
  rewrite Hfn, nth_error_repeat by assumption.
  destruct (Nat.leb_spec 0 channel); [|lia].
  destruct (Nat.ltb_spec channel (0 + numChannels)); [|lia].
  cbn [andb option_map].
  eexists. split; [reflexivity|].
  destruct (fill_channel_spec numChannels channel d Hnc
              (S (length d)) 0 (repeat (Num 0) L)) as [Hcl Hcn]; [lia|].
  rewrite repeat_length in Hcl, Hcn.
  split; [exact Hcl|].
  intros i Hi. split; [nia|].
  rewrite Hcn.
  destruct (Nat.leb_spec 0 i); [|lia].
  destruct (Nat.ltb_spec (i * numChannels) (length d)); [|nia].
  destruct (Nat.ltb_spec i L); [|lia].
  reflexivity.
Qed.

Lemma decode_odd (data : Uint8Array) (rate : Q) (numChannels : nat) :
  Nat.even (length data) = false ->
  processPcmData data rate numChannels = Throw RangeError.
Proof. unfold processPcmData, new_Int16Array. intros ->. reflexivity. Qed.

Lemma decode_short (data : Uint8Array) (rate : Q) (numChannels : nat) :
  Nat.even (length data) = true ->
  (numChannels = 0 \/ length data / 2 < numChannels)%nat ->
  processPcmData data rate numChannels = Throw NotSupportedError.
Proof.
  unfold processPcmData, new_Int16Array.
  intros -> Hshort. unfold createBuffer.
  destruct numChannels as [|nc]; [reflexivity|].
  destruct Hshort as [Hz|Hshort]; [discriminate|].
  rewrite Qfloor_nat_div, int16_view_length by lia.
  rewrite Nat.div_small by lia. reflexivity.
Qed.

(** C2, against the claim as stated: a byte sequence of odd length is
    not decoded with its last byte dropped; [new Int16Array] throws a
    [RangeError], so decoding does not succeed for every byte sequence. *)
Lemma decode_odd_length_raises :
  processPcmData [Byte.x00; Byte.x40; Byte.xff] 24000 1 = Throw RangeError
  /\ ~ (forall data : Uint8Array, exists b, processPcmData data 24000 1 = Normal b).
Proof.
  split; [reflexivity|].
  intros H. destruct (H [Byte.x00; Byte.x40; Byte.xff]) as [b Hb]. discriminate Hb.
Qed.

(** C2, as amended: a byte sequence of even length that holds at least
    one frame is decoded without an exception, into [numChannels]
    channels of [byteLength / 2 / numChannels] samples, sample [i] of a
    channel being the signed 16-bit little-endian value at sample index
    [i * numChannels + channel] divided by 32768.  An odd byte length
    makes the decoder throw a [RangeError], and fewer bytes than one
    frame a [NotSupportedError]. *)
Theorem processPcmData_decodes (data : Uint8Array) (rate : Q) (numChannels : nat) :
  (Nat.even (length data) = false ->
   processPcmData data rate numChannels = Throw RangeError)
  /\ (Nat.even (length data) = true ->
      (numChannels = 0 \/ length data / 2 < numChannels)%nat ->
      processPcmData data rate numChannels = Throw NotSupportedError)
  /\ (Nat.even (length data) = true ->
      (0 < numChannels)%nat ->
      (numChannels <= length data / 2)%nat ->
      exists b,
        processPcmData data rate numChannels = Normal b
        /\ numberOfChannels b = numChannels
        /\ frames b = (length data / 2 / numChannels)%nat
        /\ sampleRate b = rate
        /\ length (channels b) = numChannels
        /\ forall channel i,
            (channel < numChannels)%nat -> (i < frames b)%nat ->
            exists lo hi channelData,
              nth_error data (2 * (i * numChannels + channel)) = Some lo
              /\ nth_error data (2 * (i * numChannels + channel) + 1) = Some hi
              /\ nth_error (channels b) channel = Some channelData
              /\ length channelData = frames b
              /\ nth_error channelData i
                 = Some (Num (inject_Z (int16_of_bytes lo hi) / 32768))).
Proof.
  split; [apply decode_odd|].
  split; [apply decode_short|].
  intros Heven Hnc Hlen.
  destruct (decode_samples data rate numChannels Heven Hnc Hlen)
    as (b & Hb & H1 & H2 & H3 & H4 & H5).
  exists b. do 5 (split; [assumption|]).
  intros channel i Hch Hi.
  destruct (H5 channel Hch) as (cd & Hcd & Hlen' & Hs).
  destruct (Hs i Hi) as [Hidx Hv].
  destruct (int16_view_nth data (i * numChannels + channel) Hidx)
    as (lo & hi & Hlo & Hhi & Hview).
  exists lo, hi, cd. rewrite Hv, Hview. auto.
Qed.

Lemma processPcmData_decodes_witness :
  processPcmData [Byte.x00] 24000 1 = Throw RangeError
  /\ processPcmData [] 24000 1 = Throw NotSupportedError
  /\ exists b,
       processPcmData [Byte.x00; Byte.x40; Byte.xff; Byte.x7f] 24000 1 = Normal b
       /\ frames b = 2%nat.
Proof.
  split; [|split].
  - apply (proj1 (processPcmData_decodes [Byte.x00] 24000 1)). reflexivity.
  - apply (proj1 (proj2 (processPcmData_decodes [] 24000 1))); [reflexivity|].
    right. cbn. lia.
  - destruct (proj2 (proj2 (processPcmData_decodes
                              [Byte.x00; Byte.x40; Byte.xff; Byte.x7f] 24000 1)))
      as (b & Hb & _ & Hf & _); [reflexivity | lia | cbn; lia |].
    exists b. split; [exact Hb | exact Hf].
Defined.

Lemma byte_of_Z_to_N (k : Z) :
  0 <= k < 256 -> Z.of_N (Byte.to_N (byte_of_Z k)) = k.
Proof.
  intros Hk. unfold byte_of_Z.
  pose proof (Byte.to_of_N_option_map (Z.to_N k)) as H.
  destruct (N.leb_spec (Z.to_N k) 255) as [_|Hgt]; [|lia].
  destruct (Byte.of_N (Z.to_N k)) as [b|]; simpl in H; [|discriminate].
  injection H as ->. lia.
Qed.

Lemma int16_of_bytes_of_int16 (z : Z) :
  int16_range z ->
  int16_of_bytes (byte_of_Z ((z mod 65536) mod 256)) (byte_of_Z ((z mod 65536) / 256)) = z.
Proof.
  intros Hz. unfold int16_of_bytes.
  pose proof (Z.mod_pos_bound z 65536 eq_refl) as Hu.
  set (u := z mod 65536) in *.
  assert (Hz' : u = z \/ u = z + 65536).
  { unfold u. destruct (Z.leb_spec 0 z).
    - left. apply Z.mod_small. unfold int16_range in Hz. lia.
    - right. symmetry. apply Z.mod_unique with (q := -1); unfold int16_range in Hz; lia. }
  rewrite !byte_of_Z_to_N
    by (first [apply Z.mod_pos_bound; lia
              | split; [apply Z.div_pos; lia | apply Z.div_lt_upper_bound; lia]]).
  rewrite (Z.add_comm (u mod 256)), <- Z.div_mod by lia.
  unfold int16_range in Hz.
  destruct (Z.ltb_spec u 32768); lia.
Qed.

Lemma int16_view_bytes (l : Int16Array) :
  Forall int16_range l -> int16_view (int16_bytes l) = l.
Proof.
  induction 1 as [|z l Hz _ IH]; [reflexivity|].
  unfold int16_bytes in *. cbn [flat_map bytes_of_int16 app int16_view].
  rewrite IH, int16_of_bytes_of_int16 by assumption. reflexivity.
Qed.

Lemma int16_bytes_length (l : Int16Array) :
  length (int16_bytes l) = (2 * length l)%nat.
Proof.
  induction l as [|z l IH]; [reflexivity|].
  unfold int16_bytes in *. cbn [flat_map bytes_of_int16 app length].
  rewrite IH. lia.
Qed.

Lemma ToInt16_range (v : number) : int16_range (ToInt16 v).
Proof.
  unfold int16_range, ToInt16. destruct v as [q|]; [|lia].
  pose proof (Z.mod_pos_bound (Qnum q ÷ Z.pos (Qden q) + 32768) 65536 eq_refl). lia.
Qed.

(** Truncation toward zero of a rational. *)
Lemma quot_bounds (q : Q) :
  let t := Z.quot (Qnum q) (Zpos (Qden q)) in
  (0 <= q -> inject_Z t <= q /\ q < inject_Z t + 1)%Q
  /\ (q <= 0 -> q <= inject_Z t /\ inject_Z t - 1 < q)%Q.
Proof.
  destruct q as [a b]. intros t. cbn [Qnum Qden] in t.
  unfold Qle, Qlt, Qminus, Qplus, Qopp, inject_Z; cbn [Qnum Qden].
  split; intros Ha.
  - assert (Ht : t = a / Z.pos b) by (apply Z.quot_div_nonneg; lia).
    pose proof (Z.div_mod a (Z.pos b) ltac:(lia)) as Hdm.
    pose proof (Z.mod_pos_bound a (Z.pos b) ltac:(lia)) as Hm.
    rewrite <- Ht in Hdm. nia.
  - assert (Ht : t = - ((- a) / Z.pos b)).
    { unfold t. rewrite <- (Z.opp_involutive a) at 1.
      rewrite Z.quot_opp_l by lia. f_equal. apply Z.quot_div_nonneg; lia. }
    pose proof (Z.div_mod (- a) (Z.pos b) ltac:(lia)) as Hdm.
    pose proof (Z.mod_pos_bound (- a) (Z.pos b) ltac:(lia)) as Hm.
    nia.
Qed.

Lemma wrap_small (t : Z) :
  -32768 <= t <= 32767 -> (t + 32768) mod 65536 - 32768 = t.
Proof. intros H. rewrite Z.mod_small; lia. Qed.

Lemma clamp_in_range (s : Q) :
  (-1 <= s <= 1)%Q ->
  exists y, (y == s)%Q /\ Math_max (Num (-1)) (Math_min (Num 1) (Num s)) = Num y.
Proof.
  intros [Hlo Hhi]. unfold Math_min.
  destruct (Qle_bool 1 s) eqn:E1; unfold Math_max.
  - apply Qle_bool_iff in E1. exists 1%Q. split; [lra|reflexivity].
  - exists s. split; [reflexivity|].
    destruct (Qle_bool (-1) s) eqn:E2; [reflexivity|].
    assert (Qle_bool (-1) s = true) by (apply Qle_bool_iff; exact Hlo). congruence.
Qed.

(** The 16-bit value of a sample in [[-1, 1]], and how far the decoded
    value lies from the sample. *)
Lemma pcm_sample_bounds (s : Q) :
  (-1 <= s <= 1)%Q ->
  let s' := (inject_Z (pcm_sample (Num s)) / 32768)%Q in
  (s < 0 -> 0 <= s' - s /\ s' - s < 1 # 32768)%Q
  /\ (0 <= s -> 0 <= s - s' /\ s - s' < 2 # 32768)%Q.
Proof.
  intros Hs.
  destruct (clamp_in_range s Hs) as (y & Hy & Hc).
  destruct Hs as [Hlo Hhi].
  unfold pcm_sample. rewrite Hc. cbn [num_ltb num_mul].
  destruct (Qltb y 0) eqn:Elt; cbn [ToInt16].
  - apply Qltb_lt in Elt.
    destruct (quot_bounds (y * 32768)) as [_ Hneg].
    destruct Hneg as [H1 H2]; [lra|].
    set (t := Qnum (y * 32768) ÷ Z.pos (Qden (y * 32768))) in *.
    assert (Ht : -32768 <= t <= 32767).
    { split.
      - rewrite Zle_Qle. change (inject_Z (-32768)) with (-32768)%Q. lra.
      - apply Z.lt_succ_r. rewrite Zlt_Qlt. change (inject_Z (Z.succ 32767)) with 32768%Q. lra. }
    rewrite wrap_small by exact Ht.
    assert (Hs' : (inject_Z t / 32768 * 32768 == inject_Z t)%Q) by field.
    set (s' := (inject_Z t / 32768)%Q) in *.
    split; intros H; split; lra.
  - assert (Hge : (0 <= y)%Q).
    { apply Qnot_lt_le. intros Hlt. apply Qltb_lt in Hlt. congruence. }
    destruct (quot_bounds (y * 32767)) as [Hpos _].
    destruct Hpos as [H1 H2]; [lra|].
    set (t := Qnum (y * 32767) ÷ Z.pos (Qden (y * 32767))) in *.
    assert (Ht : -32768 <= t <= 32767).
    { split.
      - apply Z.lt_pred_le. rewrite Zlt_Qlt. change (inject_Z (Z.pred (-32768))) with (-32769)%Q. lra.
      - rewrite Zle_Qle. change (inject_Z 32767) with 32767%Q. lra. }
    rewrite wrap_small by exact Ht.
    assert (Hs' : (inject_Z t / 32768 * 32768 == inject_Z t)%Q) by field.
    set (s' := (inject_Z t / 32768)%Q) in *.
    split; intros H; split; lra.
Qed.

Lemma to_pcmData_range (frame : Float32Array) : Forall int16_range (to_pcmData frame).
Proof.
  unfold to_pcmData. apply Forall_forall. intros z Hz.
  apply in_map_iff in Hz as (x & <- & _). apply ToInt16_range.
Qed.

(** C3, as amended: for a frame that is not empty and whose samples
    all lie in [[-1, 1]], encoding to 16-bit PCM and decoding gives, for
    every sample, a value less than two quantization steps (2/32768)
    below the original when the sample is not negative, and less than
    one step (1/32768) above it when the sample is negative. *)
Theorem pcm_round_trip (frame : Float32Array) :
  frame <> [] ->
  (forall x, In x frame -> exists s, x = Num s /\ (-1 <= s <= 1)%Q) ->
  exists b channelData,
    processPcmData (encodePcm16 frame) 24000 1 = Normal b
    /\ nth_error (channels b) 0 = Some channelData
    /\ length channelData = length frame
    /\ forall i s,
        nth_error frame i = Some (Num s) ->
        exists s',
          nth_error channelData i = Some (Num s')
          /\ (s < 0 -> 0 <= s' - s /\ s' - s < 1 # 32768)%Q
          /\ (0 <= s -> 0 <= s - s' /\ s - s' < 2 # 32768)%Q.
Proof.
  intros Hne Hrange.
  assert (Hlen : length (encodePcm16 frame) = (2 * length frame)%nat).
  { unfold encodePcm16, to_pcmData. now rewrite int16_bytes_length, length_map. }
  assert (Hhalf : (length (encodePcm16 frame) / 2 = length frame)%nat).
  { rewrite Hlen, Nat.mul_comm. apply Nat.div_mul. lia. }
  assert (Hpos : (0 < length frame)%nat) by (destruct frame; [congruence | cbn; lia]).
  destruct (decode_samples (encodePcm16 frame) 24000 1) as (b & Hb & _ & Hf & _ & _ & Hch).
  - rewrite Hlen, Nat.even_mul. reflexivity.
  - lia.
  - lia.
  - rewrite Hhalf, Nat.div_1_r in Hf.
    destruct (Hch 0%nat ltac:(lia)) as (cd & Hcd & Hcl & Hs).
    exists b, cd. split; [exact Hb|]. split; [exact Hcd|]. split; [lia|].
    intros i s Hi.
    assert (Hilt : (i < frames b)%nat).
    { rewrite Hf. apply nth_error_Some. congruence. }
    destruct (Hs i Hilt) as [_ Hv].
    rewrite Nat.mul_1_r, Nat.add_0_r in Hv.
    unfold encodePcm16 in Hv.
    rewrite int16_view_bytes in Hv by apply to_pcmData_range.
    unfold to_pcmData in Hv. rewrite (map_nth_error _ _ _ Hi) in Hv.
    cbn [int16_sample] in Hv.
    exists (inject_Z (pcm_sample (Num s)) / 32768)%Q.
    split; [exact Hv|].
    apply pcm_sample_bounds.
    destruct (Hrange (Num s)) as (s0 & E & Hs0); [eapply nth_error_In; eauto|].
    injection E as <-. exact Hs0.
Qed.

Lemma pcm_round_trip_witness :
  exists b channelData,
    processPcmData (encodePcm16 [Num (1 # 2); Num (- (1 # 4))]) 24000 1 = Normal b
    /\ nth_error (channels b) 0 = Some channelData
    /\ length channelData = 2%nat.
Proof.
  destruct (pcm_round_trip [Num (1 # 2); Num (- (1 # 4))])
    as (b & cd & Hb & Hcd & Hlen & _).
  - discriminate.
  - intros x [<-|[<-|[]]]; eexists; (split; [reflexivity|]); split; discriminate.
  - exists b, cd. split; [exact Hb|]. split; [exact Hcd | exact Hlen].
Defined.

(** C3, against the claim as stated: the sample 65535/65536 is encoded
    as 32766 and decoded as 32766/32768, one and a half quantization
    steps below the original. *)
Lemma round_trip_exceeds_one_step :
  processPcmData (encodePcm16 [Num (65535 # 65536)]) 24000 1
  = Normal (mkAudioBuffer 1 1 24000 [[Num (32766 # 32768)]])
  /\ (-1 <= 65535 # 65536 <= 1)%Q
  /\ (1 # 32768 < (65535 # 65536) - (32766 # 32768))%Q.
Proof.
  split; [vm_compute; reflexivity|].
  split; [split; discriminate|].
  reflexivity.
Qed.

End PcmFacts.

(* ================================================================== *)
(** * Properties of the resampler *)
(* ================================================================== *)

Section IeeeFacts.

Import SpecFloat Ieee.

Lemma shr_1_nonneg (r : shr_record) : 0 <= shr_m r -> 0 <= shr_m (shr_1 r).
Proof.
  destruct r as [m r s]. destruct m as [|[p|p|]|p]; cbn; intros H; lia.
Qed.

Lemma iter_pos_keeps {A : Type} (P : A -> Prop) (f : A -> A) :
  (forall x, P x -> P (f x)) -> forall p x, P x -> P (iter_pos f p x).
Proof.
  intros Hf. induction p as [p IH|p IH|]; intros x Hx; cbn; auto.
Qed.

Lemma shr_fexp_nonneg (prec emax m e : Z) (l : location) :
  0 <= m -> 0 <= shr_m (fst (shr_fexp prec emax m e l)).
Proof.
  intros Hm. unfold shr_fexp, shr.
  assert (H0 : 0 <= shr_m (shr_record_of_loc m l)) by (destruct l as [|[]]; exact Hm).
  destruct (fexp prec emax (Zdigits2 m + e) - e); cbn [fst]; try exact H0.
  apply (iter_pos_keeps (fun r => 0 <= shr_m r)); [apply shr_1_nonneg | exact H0].
Qed.

Lemma round_nearest_even_nonneg (m : Z) (l : location) :
  0 <= m -> 0 <= round_nearest_even m l.
Proof.
  intros Hm. destruct l as [|[]]; cbn; try lia. destruct (Z.even m); lia.
Qed.

(** Rounding a mantissa that is not negative gives a number of the
    sign asked for, never [NaN]. *)
Lemma binary_round_aux_sign (prec emax : Z) (sx : bool) (mx ex : Z) (lx : location) :
  0 <= mx -> sign_is sx (binary_round_aux prec emax sx mx ex lx).
Proof.
  intros Hm. unfold binary_round_aux.
  pose proof (shr_fexp_nonneg prec emax mx ex lx Hm) as H1.
  destruct (shr_fexp prec emax mx ex lx) as [mrs' e']. cbn [fst] in H1.
  pose proof (shr_fexp_nonneg prec emax
                (round_nearest_even (shr_m mrs') (loc_of_shr_record mrs')) e' loc_Exact
                (round_nearest_even_nonneg _ _ H1)) as H2.
  destruct (shr_fexp prec emax _ e' loc_Exact) as [mrs'' e'']. cbn [fst] in H2.
  destruct (shr_m mrs'') as [|p|p]; [reflexivity| |lia].
  destruct (e'' <=? emax - prec); reflexivity.
Qed.

Lemma binary_normalize_sign (prec emax z e : Z) :
  0 <= z -> sign_is false (binary_normalize prec emax z e false).
Proof.
  intros Hz. destruct z as [|p|p]; [reflexivity| |lia].
  cbn [binary_normalize]. unfold binary_round.
  destruct (shl_align p e _) as [mz ez]. apply binary_round_aux_sign. lia.
Qed.

Lemma of_int_sign (z : Z) : 0 <= z -> sign_is false (of_int z).
Proof. apply binary_normalize_sign. Qed.

Lemma div_core_nonneg (prec emax : Z) (m1 m2 : positive) (e1 e2 : Z) :
  0 <= fst (fst (SFdiv_core_binary prec emax (Zpos m1) e1 (Zpos m2) e2)).
Proof.
  unfold SFdiv_core_binary.
  set (s := _ - _ - Z.min _ _).
  set (m' := match s with Z.pos _ => Z.shiftl (Z.pos m1) s | 0 => Z.pos m1 | Z.neg _ => 0 end).
  assert (Hm' : 0 <= m').
  { unfold m'. destruct s; try lia. apply Z.shiftl_nonneg. lia. }
  pose proof (Z.div_pos m' (Z.pos m2) Hm' ltac:(lia)) as Hq.
  unfold Z.div in Hq. destruct (Z.div_eucl m' (Z.pos m2)) as [q r]. exact Hq.
Qed.

(** A quotient is [NaN] or has the sign of the signs. *)
Lemma fdiv_sign (x y : double) (sx sy : bool) :
  sign_is sx x -> sign_is sy y ->
  fdiv x y = NaN \/ sign_is (xorb sx sy) (fdiv x y).
Proof.
  destruct x as [s1|s1| |s1 m1 e1], y as [s2|s2| |s2 m2 e2]; cbn [sign_is];
    intros Hx Hy; try contradiction; subst; unfold fdiv; cbn [SFdiv];
    try (now left); try (right; reflexivity).
  right.
  pose proof (div_core_nonneg 53 1024 m1 m2 e1 e2) as Hq.
  destruct (SFdiv_core_binary 53 1024 (Z.pos m1) e1 (Z.pos m2) e2) as [[mz ez] lz].
  apply binary_round_aux_sign. exact Hq.
Qed.

(** A product is [NaN] or has the sign of the signs. *)
Lemma fmul_sign (x y : double) (sx sy : bool) :
  sign_is sx x -> sign_is sy y ->
  fmul x y = NaN \/ sign_is (xorb sx sy) (fmul x y).
Proof.
  destruct x as [s1|s1| |s1 m1 e1], y as [s2|s2| |s2 m2 e2]; cbn [sign_is];
    intros Hx Hy; try contradiction; subst; unfold fmul; cbn [SFmul];
    try (now left); try (right; reflexivity).
  right. apply binary_round_aux_sign. lia.
Qed.

(** The double of a rational is a number. *)
Lemma of_Q_sign (q : Q) : exists s, sign_is s (of_Q q).
Proof.
  unfold of_Q. destruct (Qnum q) as [|p|p].
  - exists false. reflexivity.
  - destruct (fdiv_sign (S754_finite false p 0) (S754_finite false (Qden q) 0)
                false false eq_refl eq_refl) as [H|H].
    + exfalso. revert H. unfold fdiv. cbn [SFdiv].
      pose proof (div_core_nonneg 53 1024 p (Qden q) 0 0) as Hq.
      destruct (SFdiv_core_binary 53 1024 (Z.pos p) 0 (Z.pos (Qden q)) 0) as [[mz ez] lz].
      pose proof (binary_round_aux_sign 53 1024 (xorb false false) mz ez lz Hq) as Hs.
      intros E. rewrite E in Hs. exact Hs.
    + eexists. exact H.
  - destruct (fdiv_sign (S754_finite true p 0) (S754_finite false (Qden q) 0)
                true false eq_refl eq_refl) as [H|H].
    + exfalso. revert H. unfold fdiv. cbn [SFdiv].
      pose proof (div_core_nonneg 53 1024 p (Qden q) 0 0) as Hq.
      destruct (SFdiv_core_binary 53 1024 (Z.pos p) 0 (Z.pos (Qden q)) 0) as [[mz ez] lz].
      pose proof (binary_round_aux_sign 53 1024 (xorb true false) mz ez lz Hq) as Hs.
      intros E. rewrite E in Hs. exact Hs.
    + eexists. exact H.
Qed.

(** A number is equal to itself. *)
Lemma feqb_refl (x : double) (s : bool) : sign_is s x -> feqb x x = true.
Proof.
  destruct x as [s1|s1| |s1 m e]; cbn [sign_is]; intros H; try contradiction;
    unfold feqb, SFeqb; cbn [SFcompare].
  - reflexivity.
  - destruct s1; reflexivity.
  - rewrite Z.compare_refl, Pos.compare_cont_refl. destruct s1; reflexivity.
Qed.

Lemma pow2_pos (k : Z) : 0 <= k -> 0 < 2 ^ k.
Proof. intros H. apply Z.pow_pos_nonneg; lia. Qed.

Lemma round_of_negative (m : positive) (e : Z) :
  (if 0 <=? e then Z.neg m * 2 ^ e
   else (2 * Z.neg m + 2 ^ (- e)) / (2 * 2 ^ (- e))) <= 0.
Proof.
  destruct (Z.leb_spec 0 e) as [He|He].
  - pose proof (pow2_pos e He). apply Z.mul_nonpos_nonneg; lia.
  - pose proof (pow2_pos (- e) ltac:(lia)) as Hp.
    assert (Hlt : (2 * Z.neg m + 2 ^ (- e)) / (2 * 2 ^ (- e)) < 1).
    { apply Z.div_lt_upper_bound; lia. }
    lia.
Qed.

Lemma floor_of_positive (m : positive) (e : Z) :
  0 <= (if 0 <=? e then Z.pos m * 2 ^ e else Z.pos m / 2 ^ (- e)).
Proof.
  destruct (Z.leb_spec 0 e) as [He|He].
  - pose proof (pow2_pos e He). apply Z.mul_nonneg_nonneg; lia.
  - apply Z.div_pos; [lia|]. apply pow2_pos. lia.
Qed.

(** Rounding a number that is negative, or a negative zero, does not
    give a positive integer. *)
Lemma Math_round_negative (x : double) (n : Z) :
  sign_is true x -> Math_round x = Int n -> n <= 0.
Proof.
  destruct x as [s1|s1| |s1 m e]; cbn [sign_is Math_round]; intros H;
    try contradiction; subst.
  - intros [= <-]. lia.
  - discriminate.
  - intros E. unfold signed in E.
    replace n with (if 0 <=? e then Z.neg m * 2 ^ e
                    else (2 * Z.neg m + 2 ^ (- e)) / (2 * 2 ^ (- e))) by congruence.
    apply round_of_negative.
Qed.

(** The floor of a number that is not negative is an integer that is
    not negative, or [+Infinity]. *)
Lemma Math_floor_nonneg (x : double) :
  sign_is false x ->
  Math_floor x = PosInf \/ exists o, Math_floor x = Int o /\ 0 <= o.
Proof.
  destruct x as [s1|s1| |s1 m e]; cbn [sign_is Math_floor]; intros H;
    try contradiction; subst.
  - right. exists 0. split; [reflexivity|lia].
  - now left.
  - right. eexists. split; [reflexivity|]. apply floor_of_positive.
Qed.

(** The loop over [i] is entered only for a ratio that is finite and
    positive. *)
Lemma ratio_of_entered_loop (len n : Z) (ratio : double) :
  0 <= len ->
  Math_round (fdiv (of_int len) ratio) = Int n -> 1 <= n ->
  exists m e, ratio = S754_finite false m e.
Proof.
  intros Hlen Hr Hn.
  pose proof (of_int_sign len Hlen) as Hx.
  destruct ratio as [s|s| |s m e].
  - exfalso. revert Hr. unfold fdiv.
    destruct (of_int len) as [s1|s1| |s1 m1 e1]; cbn; try discriminate;
      destruct (xorb s1 s); discriminate.
  - exfalso. revert Hr. unfold fdiv.
    destruct (of_int len) as [s1|s1| |s1 m1 e1]; cbn; try discriminate;
      intros [= <-]; lia.
  - exfalso. revert Hr. unfold fdiv.
    destruct (of_int len) as [s1|s1| |s1 m1 e1]; cbn; discriminate.
  - destruct s; [|eauto].
    exfalso.
    destruct (fdiv_sign (of_int len) (S754_finite true m e) false true Hx eq_refl)
      as [E|Hs].
    + rewrite E in Hr. discriminate Hr.
    + pose proof (Math_round_negative _ n Hs Hr). lia.
Qed.

(** Inside the loop the start of a window is an integer that is not
    negative, or [+Infinity]. *)
Lemma offset_of_entered_loop (m : positive) (e i : Z) :
  0 <= i ->
  let offset := Math_floor (fmul (of_int i) (S754_finite false m e)) in
  offset = PosInf \/ exists o, offset = Int o /\ 0 <= o.
Proof.
  intros Hi offset. apply Math_floor_nonneg.
  pose proof (of_int_sign i Hi) as Hx.
  destruct (fmul_sign (of_int i) (S754_finite false m e) false false Hx eq_refl)
    as [E|Hs]; [|exact Hs].
  exfalso. revert E. unfold fmul.
  destruct (of_int i) as [s1|s1| |s1 m1 e1]; cbn [SFmul sign_is] in *;
    try discriminate; try contradiction.
  intros E.
  pose proof (binary_round_aux_sign 53 1024 (xorb s1 false) (Z.pos (m1 * m)) (e1 + e)
                loc_Exact ltac:(lia)) as Hs.
  rewrite E in Hs. exact Hs.
Qed.

End IeeeFacts.

Section ResampleFacts.

Import Pcm Ieee Resample ResampleSpec.

Lemma skipn_nth_cons {A : Type} (d : A) (l : list A) :
  forall n, (n < length l)%nat -> skipn n l = nth n l d :: skipn (S n) l.
Proof.
  induction l as [|x l IH]; intros [|n] Hn; cbn [length] in Hn; try lia.
  - reflexivity.
  - cbn [skipn nth]. rewrite (IH n) by lia. reflexivity.
Qed.

Lemma window_empty (buffer : Float32Array) (j : Z) (nextOffset : integral) :
  below j nextOffset && (j <? Z.of_nat (length buffer)) = false ->
  window buffer (Int j) nextOffset = [].
Proof.
  intros H. unfold window.
  replace (Z.to_nat _) with 0%nat; [reflexivity|].
  destruct nextOffset as [n| | |]; cbn [below] in H;
    repeat match type of H with
      | context [Z.ltb ?a ?b] => destruct (Z.ltb_spec a b)
      end; cbn in H; try discriminate H; lia.
Qed.

Lemma window_step (buffer : Float32Array) (j : Z) (nextOffset : integral) :
  0 <= j -> below j nextOffset = true -> j < Z.of_nat (length buffer) ->
  window buffer (Int j) nextOffset
  = element buffer j :: window buffer (Int (j + 1)) nextOffset.
Proof.
  intros H0 H1 H2. unfold window, element.
  destruct (Z.ltb_spec j 0); [lia|].
  destruct nextOffset as [n| | |]; cbn [below] in H1; try discriminate H1.
  - apply Z.ltb_lt in H1.
    replace (Z.to_nat (Z.min n (Z.of_nat (length buffer)) - j))
      with (S (Z.to_nat (Z.min n (Z.of_nat (length buffer)) - (j + 1)))) by lia.
    rewrite (skipn_nth_cons NaN) by lia.
    replace (Z.to_nat (j + 1)) with (S (Z.to_nat j)) by lia.
    reflexivity.
  - replace (Z.to_nat (Z.of_nat (length buffer) - j))
      with (S (Z.to_nat (Z.of_nat (length buffer) - (j + 1)))) by lia.
    rewrite (skipn_nth_cons NaN) by lia.
    replace (Z.to_nat (j + 1)) with (S (Z.to_nat j)) by lia.
    reflexivity.
Qed.

(** The loop over [j] adds up the window from left to right. *)
Lemma window_loop_spec (buffer : Float32Array) (nextOffset : integral) :
  forall fuel j sum count,
    0 <= j ->
    (Z.to_nat (Z.of_nat (length buffer) - j) <= fuel)%nat ->
    window_loop fuel buffer j nextOffset sum count =
    (fold_left fadd (window buffer (Int j) nextOffset) sum,
     count + Z.of_nat (length (window buffer (Int j) nextOffset))).
Proof.
  induction fuel as [|fuel IH]; intros j sum count Hj Hfuel; cbn [window_loop].
  - rewrite window_empty.
    + cbn. now rewrite Z.add_0_r.
    + destruct (Z.ltb_spec j (Z.of_nat (length buffer))); [lia|apply andb_false_r].
  - destruct (below j nextOffset && (j <? Z.of_nat (length buffer))) eqn:E.
    + apply andb_true_iff in E. destruct E as (E1 & E2). apply Z.ltb_lt in E2.
      rewrite IH by lia. rewrite (window_step buffer j) by assumption.
      cbn [fold_left length]. f_equal. lia.
    + rewrite window_empty by exact E. cbn. now rewrite Z.add_0_r.
Qed.

(** An output sample is the rounded mean of its window, or the sample
    at the start of an empty window. *)
Lemma output_sample_spec (buffer : Float32Array) (ratio : double) (i : nat) :
  let offset := Math_floor (fmul (of_int (Z.of_nat i)) ratio) in
  let nextOffset := Math_floor (fmul (of_int (Z.of_nat i + 1)) ratio) in
  (offset = PosInf \/ exists o, offset = Int o /\ 0 <= o) ->
  output_sample buffer ratio i =
  fround match window buffer offset nextOffset with
         | [] => array_get buffer offset
         | w => mean w
         end.
Proof.
  intros offset nextOffset Hoff. unfold output_sample.
  fold offset nextOffset.
  destruct Hoff as [->|(o & -> & Ho)]; [reflexivity|].
  rewrite window_loop_spec by lia.
  destruct (window buffer (Int o) nextOffset) as [|x w] eqn:Ew.
  - reflexivity.
  - cbn [length]. destruct (Z.ltb_spec 0 (0 + Z.of_nat (S (length w)))); [|lia].
    unfold mean. cbn [length]. reflexivity.
Qed.

Lemma downsample_loop_spec (buffer : Float32Array) (ratio : double) (n : Z) :
  forall fuel i result,
    n <= Z.of_nat (i + fuel) ->
    length (downsample_loop fuel i (Int n) buffer ratio result) = length result
    /\ forall k,
        nth_error (downsample_loop fuel i (Int n) buffer ratio result) k =
        if ((i <=? k)%nat && (Z.of_nat k <? n) && (k <? length result)%nat)%bool
        then Some (output_sample buffer ratio k)
        else nth_error result k.
Proof.
  induction fuel as [|fuel IH]; intros i result Hfuel; cbn [downsample_loop below].
  - split; [reflexivity|]. intros k. nat_cases; try reflexivity; lia.
  - destruct (Z.ltb_spec (Z.of_nat i) n) as [Hlt|Hge].
    + destruct (IH (S i) (array_set result i (output_sample buffer ratio i)))
        as [Hlen Hnth]; [lia|].
      rewrite array_set_length in Hlen, Hnth.
      split; [exact Hlen|]. intros k. rewrite Hnth, array_set_nth_error.
      nat_cases; subst; try reflexivity; try lia.
    + split; [reflexivity|]. intros k. nat_cases; try reflexivity; lia.
Qed.

(** What [downsampleBuffer] returns for rates that differ. *)
Lemma downsample_samples (buffer : Float32Array) (inputRate outputRate : Q)
    (result : Float32Array) :
  feqb (of_Q outputRate) (of_Q inputRate) = false ->
  downsampleBuffer buffer inputRate outputRate = Normal result ->
  let ratio := fdiv (of_Q inputRate) (of_Q outputRate) in
  let newLength := Math_round (fdiv (of_int (Z.of_nat (length buffer))) ratio) in
  (newLength = NotANumber /\ result = []
   \/ newLength = Int (Z.of_nat (length result)))
  /\ forall i, (i < length result)%nat ->
       let offset := Math_floor (fmul (of_int (Z.of_nat i)) ratio) in
       let nextOffset := Math_floor (fmul (of_int (Z.of_nat i + 1)) ratio) in
       nth_error result i =
         Some (fround match window buffer offset nextOffset with
                      | [] => array_get buffer offset
                      | w => mean w
                      end).
Proof.
  intros Hne Hres ratio newLength. unfold downsampleBuffer in Hres.
  rewrite Hne in Hres. fold ratio newLength in Hres.
  destruct newLength as [n| | |] eqn:En; cbn [new_Float32Array] in Hres;
    try discriminate Hres.
  - destruct ((n <? 0) || (2 ^ 53 - 1 <? n)) eqn:Eb; [discriminate Hres|].
    apply orb_false_iff in Eb. destruct Eb as (Eb & _). apply Z.ltb_ge in Eb.
    injection Hres as Hres.
    destruct (downsample_loop_spec buffer ratio n (length (repeat zero (Z.to_nat n))) 0
                (repeat zero (Z.to_nat n))) as [Hlen Hnth].
    { rewrite repeat_length. lia. }
    rewrite Hres in Hlen, Hnth. rewrite repeat_length in Hlen, Hnth.
    split; [right; f_equal; lia|].
    intros i Hi offset nextOffset. rewrite Hnth.
    destruct (Nat.leb_spec 0 i); [|lia].
    destruct (Z.ltb_spec (Z.of_nat i) n); [|lia].
    destruct (Nat.ltb_spec i (Z.to_nat n)); [|lia].
    cbn [andb]. f_equal.
    destruct (ratio_of_entered_loop (Z.of_nat (length buffer)) n ratio) as (m & e & Hr);
      [lia | exact En | lia |].
    apply output_sample_spec. fold offset. unfold offset. rewrite Hr.
    apply offset_of_entered_loop. lia.
  - injection Hres as <-. split; [now left|]. intros i Hi. cbn in Hi. lia.
Qed.

(** C5, against the claim as stated: read in exact arithmetic the
    claim fails, in the window and in the mean.  For the input [1, 2]
    resampled from 1000 to 49000, output sample 49 has, by the claim,
    the empty window from [floor(49 * 1000/49000) = 1] to
    [floor(50 * 1000/49000) = 1] and so the value of input sample 1,
    which is 2; the code computes [49 * ratio] in doubles, which is less
    than 1, takes the window from 0 to 1 and stores the value of input
    sample 0, which is 1.  For the single-precision samples nearest to
    0.1 and 0.2 resampled from 2 to 1, the mean of the two is
    40265319/2^28; the code stores the single-precision value nearest to
    it, 10066330/2^26. *)
Lemma downsample_window_differs :
  (let buffer := [float32 1; float32 2] in
   exact_offset 1000 49000 49 = 1
   /\ exact_offset 1000 49000 50 = 1
   /\ Math_floor (fmul (of_int 49) (fdiv (of_Q 1000) (of_Q 49000))) = Int 0
   /\ exists result x claimed stored,
        downsampleBuffer buffer 1000 49000 = Normal result
        /\ length result = 98%nat
        /\ nth_error result 49 = Some x
        /\ value x = Some stored /\ (stored == 1)%Q
        /\ exact_sample buffer 1000 49000 49 = Some claimed /\ (claimed == 2)%Q
        /\ ~ (stored == claimed)%Q)
  /\ (let buffer := [float32 (1 # 10); float32 (2 # 10)] in
      exists x claimed stored,
        downsampleBuffer buffer 2 1 = Normal [x]
        /\ value x = Some stored /\ (stored == 10066330 # 67108864)%Q
        /\ exact_sample buffer 2 1 0 = Some claimed
        /\ (claimed == 40265319 # 268435456)%Q
        /\ ~ (stored == claimed)%Q).
Proof.
  cbv zeta. split.
  - split; [reflexivity|]. split; [reflexivity|]. split; [vm_compute; reflexivity|].
    eexists. eexists. eexists. eexists.
    split; [vm_compute; reflexivity|].
    split; [reflexivity|].
    split; [reflexivity|].
    split; [vm_compute; reflexivity|].
    split; [reflexivity|].
    split; [vm_compute; reflexivity|].
    split; [reflexivity|].
    intros H. vm_compute in H. discriminate H.
  - eexists. eexists. eexists.
    split; [vm_compute; reflexivity|].
    split; [vm_compute; reflexivity|].
    split; [reflexivity|].
    split; [vm_compute; reflexivity|].
    split; [reflexivity|].
    intros H. vm_compute in H. discriminate H.
Qed.

(** C5, as amended: for rates that differ, whenever downsampling
    returns, output sample [i] is the single-precision rounding of the
    mean of the input samples from [floor(i * ratio)] up to
    [floor((i + 1) * ratio)], exclusive and clipped to the input length,
    where [ratio = inputRate / outputRate], the two products, the sum
    from left to right and the quotient by the count are each rounded to
    a double; when that window holds no sample it is the input sample at
    index [floor(i * ratio)], or [NaN] should that index lie beyond the
    input.  The number of output samples is
    [Math.round(length / ratio)], and the call returns whenever that is
    an integer from 0 to 2^53 - 1. *)
Theorem downsample_box_filter (buffer : Float32Array) (inputRate outputRate : Q)
    (Hne : feqb (of_Q outputRate) (of_Q inputRate) = false) :
  let ratio := fdiv (of_Q inputRate) (of_Q outputRate) in
  let newLength := Math_round (fdiv (of_int (Z.of_nat (length buffer))) ratio) in
  (forall result,
      downsampleBuffer buffer inputRate outputRate = Normal result ->
      (newLength = NotANumber /\ result = []
       \/ newLength = Int (Z.of_nat (length result)))
      /\ forall i, (i < length result)%nat ->
           let offset := Math_floor (fmul (of_int (Z.of_nat i)) ratio) in
           let nextOffset := Math_floor (fmul (of_int (Z.of_nat i + 1)) ratio) in
           nth_error result i =
             Some (fround match window buffer offset nextOffset with
                          | [] => array_get buffer offset
                          | w => mean w
                          end))
  /\ (forall n, newLength = Int n -> 0 <= n <= 2 ^ 53 - 1 ->
      exists result,
        downsampleBuffer buffer inputRate outputRate = Normal result
        /\ Z.of_nat (length result) = n).
Proof.
  intros ratio newLength. split.
  - intros result Hres.
    apply (downsample_samples buffer inputRate outputRate result Hne Hres).
  - intros n Hn Hrange.
    unfold downsampleBuffer. rewrite Hne. fold ratio newLength. rewrite Hn.
    cbn [new_Float32Array].
    destruct (Z.ltb_spec n 0); [lia|].
    destruct (Z.ltb_spec (2 ^ 53 - 1) n); [lia|].
    cbn [orb]. eexists. split; [reflexivity|].
    destruct (downsample_loop_spec buffer ratio n (length (repeat zero (Z.to_nat n))) 0
                (repeat zero (Z.to_nat n))) as [Hlen _].
    { rewrite repeat_length. lia. }
    rewrite Hlen, repeat_length. lia.
Qed.

(** Seven samples 1 to 7 from 48 kHz to 16 kHz: two output samples, the
    means 2 of 1, 2, 3 and 5 of 4, 5, 6. *)
Lemma downsample_box_filter_witness :
  exists result v0 v1,
    downsampleBuffer (map float32 [1; 2; 3; 4; 5; 6; 7]%Q) 48000 16000 = Normal result
    /\ length result = 2%nat
    /\ option_map value (nth_error result 0) = Some (Some v0) /\ (v0 == 2)%Q
    /\ option_map value (nth_error result 1) = Some (Some v1) /\ (v1 == 5)%Q.
Proof.
  destruct (downsample_box_filter (map float32 [1; 2; 3; 4; 5; 6; 7]%Q) 48000 16000
              eq_refl) as (Hs & Hret).
  destruct (Hret 2) as (result & Hr & Hlen); [vm_compute; reflexivity | lia |].
  assert (Hl : length result = 2%nat) by lia.
  destruct (Hs result Hr) as (_ & Hv).
  exists result. eexists. eexists.
  split; [exact Hr|]. split; [exact Hl|].
  rewrite (Hv 0%nat) by lia. rewrite (Hv 1%nat) by lia.
  split; [vm_compute; reflexivity|]. split; [reflexivity|].
  split; [vm_compute; reflexivity|]. reflexivity.
Defined.

(** C9: with equal input and output rates the input buffer itself is
    returned. *)
Theorem downsample_same_rate (buffer : Float32Array) (r : Q) :
  downsampleBuffer buffer r r = Normal buffer.
Proof.
  unfold downsampleBuffer.
  destruct (of_Q_sign r) as (s & Hs). now rewrite (feqb_refl _ s Hs).
Qed.

End ResampleFacts.

(* ================================================================== *)
(** * Properties of the live connection *)
(* ================================================================== *)

Section PlaybackFacts.
Import Pcm Live LiveSpec.

Lemma decodable_decodes (pcmBytes : Uint8Array) :
  decodable pcmBytes = true ->
  exists b,
    processPcmData pcmBytes 24000 1 = Normal b
    /\ duration b = chunk_duration pcmBytes.
Proof.
  unfold decodable. intros H. apply andb_true_iff in H as [He Hl].
  apply Nat.leb_le in Hl.
  assert (H1 : (1 <= length pcmBytes / 2)%nat).
  { change 1%nat with (2 / 2)%nat. apply Nat.Div0.div_le_mono. exact Hl. }
  destruct (decode_samples pcmBytes 24000 1 He ltac:(lia) H1)
    as (b & Hb & _ & Hf & Hr & _).
  exists b. split; [exact Hb|].
  unfold duration, chunk_duration. rewrite Hf, Hr, Nat.div_1_r. reflexivity.
Qed.

(** One decodable chunk: where it starts and what it leaves behind. *)
Lemma play_chunk_decodable (now : Q) (pcmBytes : Uint8Array) (s : State) :
  decodable pcmBytes = true ->
  exists s',
    play_chunk now pcmBytes s = Normal s'
    /\ log s' = log s ++ [SourceStart (created s) (later (nextStartTime s) now)]
    /\ nextStartTime s' = (later (nextStartTime s) now + chunk_duration pcmBytes)%Q
    /\ created s' = S (created s)
    /\ map startAt (sources s') = map startAt (sources s) ++ [later (nextStartTime s) now]
    /\ map node (sources s') = map node (sources s) ++ [created s].
Proof.
  intros Hd. destruct (decodable_decodes pcmBytes Hd) as (b & Hb & Hdur).
  unfold play_chunk. rewrite Hb. eexists. split; [reflexivity|].
  cbn. rewrite Hdur, !map_app. cbn. auto.
Qed.

Lemma enqueue_all_cons (c : Q * Uint8Array) (chunks : list (Q * Uint8Array)) (s : State) :
  enqueue_all (c :: chunks) s =
  enqueue_all chunks (onmessage (fst c) (mkMessage (Some (snd c)) false) s).
Proof. reflexivity. Qed.

Lemma enqueue_all_schedule (chunks : list (Q * Uint8Array)) :
  forall s,
    Forall (fun c => decodable (snd c) = true) chunks ->
    let timing := map (fun c => (fst c, chunk_duration (snd c))) chunks in
    let s' := enqueue_all chunks s in
    log s' =
      log s ++ map (fun p => SourceStart (fst p) (snd p))
                 (combine (seq (created s) (length chunks))
                          (schedule (nextStartTime s) timing))
    /\ map startAt (sources s') =
         map startAt (sources s) ++ schedule (nextStartTime s) timing
    /\ nextStartTime s' = schedule_end (nextStartTime s) timing.
Proof.
  induction chunks as [|[now bytes] chunks IH]; intros s Hall.
  - cbn. rewrite !app_nil_r. auto.
  - inversion Hall as [|c l Hd Hrest]; subst. cbn [snd] in Hd.
    destruct (play_chunk_decodable now bytes s Hd)
      as (s1 & Hp & Hlog & Hnext & Hcr & Hst & _).
    cbv zeta. rewrite enqueue_all_cons. cbn [fst snd].
    unfold onmessage. cbn [audio interrupted]. rewrite Hp.
    destruct (IH s1 Hrest) as (IH1 & IH2 & IH3).
    rewrite IH1, IH2, IH3, Hlog, Hnext, Hcr, Hst.
    cbn [map length seq combine schedule schedule_end fst snd].
    rewrite <- !app_assoc. cbn [app]. auto.
Qed.

Lemma later_clock (next now : Q) : (next <= now)%Q -> later next now = now.
Proof.
  intros H. unfold later.
  destruct (Qle_bool next now) eqn:E; [reflexivity|].
  apply Qle_bool_iff in H. congruence.
Qed.

Lemma later_eq (next now : Q) : (now <= next)%Q -> (later next now == next)%Q.
Proof.
  intros H. unfold later.
  destruct (Qle_bool next now) eqn:E; [|reflexivity].
  apply Qle_bool_iff in E. apply Qle_antisym; assumption.
Qed.

(** C6: audio chunks are scheduled in the order in which they arrive.
    Each chunk starts at the later of the clock and the next free time
    and moves the next free time to its end, so the sources started are,
    in order, those of the spec's [schedule]; in particular two chunks
    of one second and half a second (48000 and 24000 bytes), the first
    arriving with no backlog at [now1] and the second before the first
    has ended, start at [now1] and at [now1 + 1]. *)
Theorem playback_in_arrival_order (chunks : list (Q * Uint8Array)) (s : State)
    (Hdec : Forall (fun c => decodable (snd c) = true) chunks) :
  let timing := map (fun c => (fst c, chunk_duration (snd c))) chunks in
  let s' := enqueue_all chunks s in
  log s' =
    log s ++ map (fun p => SourceStart (fst p) (snd p))
               (combine (seq (created s) (length chunks))
                        (schedule (nextStartTime s) timing))
  /\ map startAt (sources s') =
       map startAt (sources s) ++ schedule (nextStartTime s) timing
  /\ nextStartTime s' = schedule_end (nextStartTime s) timing
  /\ (forall now1 c1 now2 c2,
        chunks = [(now1, c1); (now2, c2)] ->
        Z.of_nat (length c1) = 48000 -> Z.of_nat (length c2) = 24000 ->
        (nextStartTime s <= now1)%Q ->
        (now2 <= now1 + 1)%Q ->
        exists t,
          schedule (nextStartTime s) timing = [now1; t] /\ (t == now1 + 1)%Q).
Proof.
  intros timing s'.
  destruct (enqueue_all_schedule chunks s Hdec) as (H1 & H2 & H3).
  split; [exact H1|]. split; [exact H2|]. split; [exact H3|].
  intros now1 c1 now2 c2 -> Hc1 Hc2 Hfree Hback.
  unfold timing. cbn [map schedule fst snd].
  assert (Hd1 : (chunk_duration c1 == 1)%Q).
  { unfold chunk_duration. rewrite Nat2Z.inj_div, Hc1. reflexivity. }
  rewrite (later_clock _ _ Hfree).
  eexists. split; [reflexivity|].
  rewrite later_eq; rewrite Hd1; [reflexivity | exact Hback].
Qed.

(** C7: after a message with the interrupted flag every source that was
    in the set has been stopped, the set is empty, and the next chunk
    starts at the clock reading of its arrival, whatever the next free
    time was before the interruption. *)
Theorem interrupt_resets_playback (s : State) (t0 now : Q) (pcmBytes : Uint8Array)
    (Hclock : (0 <= now)%Q) (Hdec : decodable pcmBytes = true) :
  let s1 := onmessage t0 (mkMessage None true) s in
  sources s1 = []
  /\ log s1 = log s ++ map (fun x => SourceStop (node x)) (sources s)
  /\ (forall x, In x (sources s) -> In (SourceStop (node x)) (log s1))
  /\ exists s2,
       play_chunk now pcmBytes s1 = Normal s2
       /\ log s2 = log s1 ++ [SourceStart (created s) now]
       /\ map startAt (sources s2) = [now].
Proof.
  intros s1.
  assert (Hs1 : s1 = interrupt s) by reflexivity.
  split; [rewrite Hs1; reflexivity|].
  split; [rewrite Hs1; reflexivity|].
  split.
  - intros x Hx. rewrite Hs1. cbn. apply in_or_app. right.
    apply in_map_iff. exists x. auto.
  - destruct (play_chunk_decodable now pcmBytes s1 Hdec)
      as (s2 & Hp & Hlog & _ & _ & Hst & _).
    exists s2. split; [exact Hp|].
    assert (Hnext : nextStartTime s1 = 0%Q) by (rewrite Hs1; reflexivity).
    assert (Hcr : created s1 = created s) by (rewrite Hs1; reflexivity).
    assert (Hsrc : sources s1 = []) by (rewrite Hs1; reflexivity).
    rewrite Hnext, Hcr in Hlog. rewrite Hnext, Hsrc in Hst.
    rewrite (later_clock _ _ Hclock) in Hlog, Hst.
    split; [exact Hlog | exact Hst].
Qed.

Lemma playback_in_arrival_order_witness :
  exists t,
    schedule (nextStartTime fresh_call)
      [(5%Q, chunk_duration (silence 48000));
       ((21 # 4)%Q, chunk_duration (silence 24000))] = [5%Q; t]
    /\ (t == 6)%Q.
Proof.
  assert (Hdec : Forall (fun c => decodable (snd c) = true)
                   [(5%Q, silence 48000); ((21 # 4)%Q, silence 24000)]).
  { repeat constructor; vm_compute; reflexivity. }
  destruct (playback_in_arrival_order _ fresh_call Hdec) as (_ & _ & _ & Hex).
  destruct (Hex 5%Q (silence 48000) (21 # 4)%Q (silence 24000)) as (t & Ht & Hv).
  - reflexivity.
  - vm_compute. reflexivity.
  - vm_compute. reflexivity.
  - vm_compute. discriminate.
  - vm_compute. discriminate.
  - exists t. split; [exact Ht | exact Hv].
Defined.

Lemma interrupt_resets_playback_witness :
  sources (onmessage (51 # 5) (mkMessage None true) playing) = []
  /\ exists s2,
       play_chunk (103 # 10) [Byte.x00; Byte.x40]
         (onmessage (51 # 5) (mkMessage None true) playing) = Normal s2
       /\ map startAt (sources s2) = [(103 # 10)%Q].
Proof.
  destruct (interrupt_resets_playback playing (51 # 5) (103 # 10) [Byte.x00; Byte.x40])
    as (Hs & _ & _ & s2 & Hp & _ & Hst).
  - discriminate.
  - reflexivity.
  - split; [exact Hs|]. exists s2. split; [exact Hp | exact Hst].
Defined.

End PlaybackFacts.

Section TeardownFacts.
Import Pcm Live LiveSpec.

Lemma filter_release_stops (xs : list Source) :
  filter is_release (map (fun x => SourceStop (node x)) xs)
  = map (fun x => SourceStop (node x)) xs.
Proof. induction xs as [|x xs IH]; cbn; [|rewrite IH]; reflexivity. Qed.

Lemma filter_release_tracks (ts : list Track) :
  filter is_release (map (fun t => TrackStop (track_id t)) ts)
  = map (fun t => TrackStop (track_id t)) ts.
Proof. induction ts as [|t ts IH]; cbn; [|rewrite IH]; reflexivity. Qed.

Lemma filter_none (es : list Effect) :
  Forall (fun e => is_release e = false) es -> filter is_release es = [].
Proof.
  induction 1 as [|e es He _ IH]; cbn; [reflexivity|]. now rewrite He.
Qed.

(** A call of [cleanup] after the first one changes nothing. *)
Lemma cleanup_redundant (s : State) : isCleaningUp s = true -> cleanup s = s.
Proof. unfold cleanup. intros ->. reflexivity. Qed.

Lemma first_releases_prefix (s : State) :
  first_releases s = firstn (length (releases s) - 1) (releases s).
Proof.
  unfold first_releases, releases.
  rewrite !app_assoc.
  set (l := map _ (sources s) ++ map _ (tracks_of s)).
  change [ContextClose InputCtx; ContextClose OutputCtx]
    with ([ContextClose InputCtx] ++ [ContextClose OutputCtx]).
  rewrite app_assoc.
  set (l' := l ++ [ContextClose InputCtx]).
  rewrite length_app. cbn [length].
  replace (length l' + 1 - 1)%nat with (length l' + 0)%nat by lia.
  rewrite firstn_app_2. cbn. now rewrite app_nil_r.
Qed.

Lemma torn_start (s : State) : established s -> torn s s.
Proof.
  intros (H1 & H2 & H3 & H4 & H5 & _).
  split; [rewrite H3; constructor|].
  exists []. rewrite app_nil_r, H2. auto 10.
Qed.

Lemma torn_emit (s0 s : State) (es : list Effect) :
  Forall (fun e => is_release e = false) es ->
  torn s0 s -> torn s0 (emit es s).
Proof.
  intros Hes (Ha & delta & Hlog & Hpc).
  split; [exact Ha|].
  exists (delta ++ es). cbn. rewrite Hlog, app_assoc. split; [reflexivity|].
  rewrite filter_app, (filter_none es Hes), app_nil_r.
  exact Hpc.
Qed.

Lemma torn_cleanup (s0 s : State) :
  stream s0 <> None -> torn s0 s -> torn s0 (cleanup s).
Proof.
  intros Hstream Ht.
  unfold cleanup. destruct (isCleaningUp s) eqn:Ec; [exact Ht|].
  destruct Ht as (Ha & delta & Hlog & Hpc).
  destruct s as [ictx octx str nst srcs cr ic iso pc ac lg].
  cbn in Ec, Ha, Hlog, Hpc. subst ic lg.
  destruct pc; try (destruct Hpc as (Hc & _); discriminate Hc).
  destruct Hpc as (_ & -> & -> & -> & -> & Hfil).
  destruct (stream s0) as [ts|] eqn:Es; [|congruence].
  unfold torn. cbn.
  split; [exact Ha|].
  eexists. rewrite <- !app_assoc. split; [reflexivity|].
  split; [reflexivity|]. split; [reflexivity|].
  rewrite !filter_app, Hfil, filter_release_stops, filter_release_tracks.
  unfold first_releases, tracks_of. rewrite Es. reflexivity.
Qed.

Lemma torn_cleanup_then (s0 s : State) (f : Effect) :
  is_release f = false ->
  stream s0 <> None -> torn s0 s -> torn s0 (cleanup_then f s).
Proof.
  intros Hf Hstream Ht. unfold cleanup_then.
  destruct (isCleaningUp s) eqn:Ec.
  - apply torn_emit; [repeat constructor; exact Hf | exact Ht].
  - pose proof (torn_cleanup s0 s Hstream Ht) as (Ha & Hrest).
    split.
    + cbn. apply Forall_app. split; [exact Ha | repeat constructor; exact Hf].
    + exact Hrest.
Qed.

Lemma torn_resume (s0 s : State) : torn s0 s -> torn s0 (resume s).
Proof.
  intros (Ha & delta & Hlog & Hpc). unfold resume.
  destruct s as [ictx octx str nst srcs cr ic iso pc ac lg].
  cbn in Ha, Hlog, Hpc. cbn [cleanup_pc]. subst lg.
  destruct pc.
  - split; [exact Ha|]. exists delta. cbn. auto.
  - destruct Hpc as (-> & -> & Hfil).
    unfold torn. destruct ictx; cbn.
    all: split; [exact Ha|].
    all: exists (delta ++ [ContextClose OutputCtx]).
    all: rewrite app_assoc; split; [reflexivity|].
    all: split; [reflexivity|].
    all: rewrite filter_app, Hfil; unfold first_releases, releases.
    all: rewrite <- !app_assoc; reflexivity.
  - destruct Hpc as (-> & Hfil).
    unfold torn. destruct octx; cbn.
    all: split; [constructor|].
    all: exists (delta ++ ac).
    all: rewrite app_assoc; split; [reflexivity|].
    all: split; [reflexivity|].
    all: rewrite filter_app, (filter_none _ Ha), app_nil_r; exact Hfil.
  - split; [exact Ha|]. exists delta. cbn. auto.
Qed.

Lemma torn_step (s0 s : State) (e : Event) :
  stream s0 <> None -> torn s0 s -> torn s0 (step s e).
Proof.
  intros Hstream Ht. destruct e; cbn [step].
  - cbn [disconnect active]. apply torn_emit; [repeat constructor|].
    now apply torn_cleanup.
  - unfold onclose. apply torn_cleanup_then; auto.
  - unfold onerror. apply torn_cleanup_then; auto.
    apply torn_emit; [repeat constructor | exact Ht].
  - now apply torn_resume.
Qed.

Lemma torn_run (s0 : State) (es : list Event) :
  stream s0 <> None -> forall s, torn s0 s -> torn s0 (run es s).
Proof.
  intros Hstream. induction es as [|e es IH]; intros s Ht; [exact Ht|].
  cbn [run fold_left]. apply IH. now apply torn_step.
Qed.

Lemma NoDup_map_injective {A B : Type} (f : A -> B) (l : list A) :
  (forall a b, f a = f b -> a = b) -> NoDup l -> NoDup (map f l).
Proof.
  intros Hinj. induction 1 as [|x l Hx _ IH]; cbn; constructor; auto.
  intros Hin. apply in_map_iff in Hin as (y & E & Hy).
  apply Hinj in E. subst. contradiction.
Qed.

Lemma releases_NoDup (s : State) :
  NoDup (map track_id (tracks_of s)) -> NoDup (map node (sources s)) ->
  NoDup (releases s).
Proof.
  intros Ht Hs. unfold releases.
  assert (Hinj1 : NoDup (map (fun x => SourceStop (node x)) (sources s))).
  { rewrite <- (map_map node SourceStop).
    apply NoDup_map_injective; [|exact Hs]. intros a b E. now injection E. }
  assert (Hinj2 : NoDup (map (fun t => TrackStop (track_id t)) (tracks_of s))).
  { rewrite <- (map_map track_id TrackStop).
    apply NoDup_map_injective; [|exact Ht]. intros a b E. now injection E. }
  apply NoDup_app; [exact Hinj1| |].
  - apply NoDup_app; [exact Hinj2| |].
    + repeat constructor; cbn; intuition congruence.
    + intros e He1 He2. apply in_map_iff in He1 as (t & <- & _).
      cbn in He2. intuition congruence.
  - intros e He1 He2. apply in_map_iff in He1 as (x & <- & _).
    apply in_app_or in He2 as [He2|He2].
    + apply in_map_iff in He2 as (t & E & _). discriminate E.
    + cbn in He2. intuition congruence.
Qed.

(** C8: teardown is idempotent.  From an established connection and
    for every sequence of disconnect calls, remote close and error
    events and resumptions of the suspended cleanup, the release side
    effects that have run (stopping the scheduled sources, stopping the
    microphone tracks, closing the two contexts) form a prefix of the
    list of releases, which has no repetition, and are that whole list
    once cleanup has finished; a call of cleanup after the first leaves
    the state unchanged.  Two disconnects, or a disconnect and a remote
    close, followed by the two resumptions, finish cleanup. *)
Theorem teardown_runs_once (s : State) (trace : list Event)
    (Hest : established s) :
  let s' := run trace s in
  NoDup (releases s)
  /\ (exists delta,
        log s' = log s ++ delta
        /\ (exists k, filter is_release delta = firstn k (releases s))
        /\ (cleanup_pc s' = Finished -> filter is_release delta = releases s))
  /\ (isCleaningUp s' = true -> cleanup s' = s')
  /\ cleanup_pc (run [Disconnect; Disconnect; Resume; Resume] s) = Finished
  /\ cleanup_pc (run [Disconnect; RemoteClose; Resume; Resume] s) = Finished.
Proof.
  intros s'.
  pose proof Hest as (H1 & H2 & H3 & H4 & H5 & H6 & H7 & H8).
  split; [now apply releases_NoDup|].
  split.
  - destruct (torn_run s trace H6 s (torn_start s Hest)) as (_ & delta & Hlog & Hpc).
    fold s' in Hlog, Hpc.
    exists delta. split; [exact Hlog|]. split.
    + destruct (cleanup_pc s').
      * exists 0%nat. now destruct Hpc as (_ & _ & _ & _ & _ & ->).
      * exists (length (releases s) - 1)%nat.
        destruct Hpc as (_ & _ & ->). apply first_releases_prefix.
      * exists (length (releases s)). destruct Hpc as (_ & ->).
        now rewrite firstn_all.
      * exists (length (releases s)). destruct Hpc as (_ & ->).
        now rewrite firstn_all.
    + intros E. rewrite E in Hpc. now destruct Hpc.
  - split; [apply cleanup_redundant|].
    clear s' H7 H8 Hest.
    destruct s as [ictx octx str nst srcs cr ic iso pc ac lg].
    cbn in H1, H2, H3, H4, H5, H6. subst.
    destruct str as [ts|]; [|congruence].
    split; reflexivity.
Qed.

Lemma fresh_call_established : established fresh_call.
Proof.
  unfold established. cbn.
  repeat split; try discriminate; repeat constructor; cbn; auto.
Qed.

Lemma teardown_runs_once_witness :
  NoDup (releases fresh_call)
  /\ cleanup_pc (run [Disconnect; Disconnect; Resume; Resume] fresh_call) = Finished
  /\ exists delta,
       log (run [Disconnect; RemoteClose; Resume; Resume] fresh_call)
       = log fresh_call ++ delta
       /\ filter is_release delta = releases fresh_call.
Proof.
  destruct (teardown_runs_once fresh_call [Disconnect; RemoteClose; Resume; Resume]
              fresh_call_established)
    as (Hnd & (delta & Hlog & _ & Hfin) & _ & Hdd & Hdc).
  split; [exact Hnd|]. split; [exact Hdd|].
  exists delta. split; [exact Hlog | exact (Hfin Hdc)].
Defined.

End TeardownFacts.

Section ConnectFacts.
Import Pcm Live LiveSpec.

(** C10: when the API key is absent (undefined or empty),
    [connectToJhumaLive] does not reject: it calls the error callback
    once, does nothing else (no microphone request, no audio context),
    and resolves with an object whose [disconnect], [sendVideoFrame],
    [sendText] and [setMuted] leave every state unchanged. *)
Theorem missing_key_gives_inert_connection (env : Env) (s : State)
    (Hkey : key_missing env = true) :
  exists c,
    connectToJhumaLive env s = (emit [OnError] s, Fulfilled c)
    /\ log (emit [OnError] s) = log s ++ [OnError]
    /\ stream (emit [OnError] s) = stream s
    /\ inputAudioContext (emit [OnError] s) = inputAudioContext s
    /\ outputAudioContext (emit [OnError] s) = outputAudioContext s
    /\ (forall st, disconnect c st = st)
    /\ (forall base64Image st, sendVideoFrame c base64Image st = st)
    /\ (forall text st, sendText c text st = st)
    /\ (forall muted st, setMuted c muted st = st).
Proof.
  exists inert. unfold connectToJhumaLive. rewrite Hkey.
  repeat split.
Qed.

Lemma missing_key_gives_inert_connection_witness :
  exists c,
    connectToJhumaLive (mkEnv None (Some [0%nat]) true) blank
    = (emit [OnError] blank, Fulfilled c)
    /\ log (emit [OnError] blank) = [OnError]
    /\ stream (emit [OnError] blank) = None.
Proof.
  destruct (missing_key_gives_inert_connection (mkEnv None (Some [0%nat]) true) blank)
    as (c & Hc & Hlog & Hstream & _).
  - reflexivity.
  - exists c. split; [exact Hc|]. split; [exact Hlog | exact Hstream].
Defined.

(** With a key, a granted microphone and a successful handshake the
    same call opens both contexts, requests the microphone and returns
    the live object. *)
Lemma connect_with_key :
  log fresh_call
  = [NewAudioContext InputCtx; NewAudioContext OutputCtx; GetUserMedia; LiveConnect]
  /\ stream fresh_call = Some [mkTrack 0 true false].
Proof. split; reflexivity. Qed.

End ConnectFacts.
